(** * csslab [methods/methods.py]: colour conversion and distribution estimates

    A shallow embedding of the pure functions of [methods.py]
    ([hex2rgb], [rgb2hex], [distribution_fre], [distribution_pdf],
    [distribution_cdf], [normlize]) together with the library routines
    they call, and the properties of the specification stated over it.

    Numbers.  Python integers are [Z].  NumPy/pandas floating-point values
    are modelled by [npfloat]: an exact rational, or one of the IEEE special
    values that NumPy produces instead of raising when it divides by zero.
    Rounding is not modelled: finite arithmetic is exact. *)

From Stdlib Require Import ZArith QArith Qround Qminmax Lia Lqa.
From Stdlib Require Import Ascii String HexString.
From stdpp Require Import base list sorting gmap.

#[local] Open Scope Z_scope.

(** ** Python results *)

Inductive pyerr : Type :=
| ValueError
| AttributeError.

Inductive pyres (A : Type) : Type :=
| Ok (a : A)
| Raise (e : pyerr).
Arguments Ok {A} a.
Arguments Raise {A} e.

#[global] Instance pyres_bind : MBind pyres :=
  fun A B k r =>
    match r with
    | Ok a => k a
    | Raise e => Raise e
    end.

(** ** Colour conversion *)

Module Color.

#[local] Open Scope string_scope.

(** [hex(n)]: ["0x6f"], ["0x0"], ["-0x1"]; lower-case digits after the
    prefix, exactly the rendering of [HexString.of_Z]. *)
Definition hex (n : Z) : string := HexString.of_Z n.

(** [s[k:]] *)
Fixpoint str_from (k : nat) (s : string) : string :=
  match k, s with
  | O, _ => s
  | S k', String _ s' => str_from k' s'
  | S _, EmptyString => EmptyString
  end.

Definition upper_ascii (c : ascii) : ascii :=
  let n := nat_of_ascii c in
  if ((97 <=? n) && (n <=? 122))%nat then ascii_of_nat (n - 32) else c.

(** [s.upper()] *)
Fixpoint upper (s : string) : string :=
  match s with
  | EmptyString => EmptyString
  | String c s' => String (upper_ascii c) (upper s')
  end.

(** [c in s] for a one-character [c] *)
Fixpoint str_contains (c : ascii) (s : string) : bool :=
  match s with
  | EmptyString => false
  | String d s' => if Ascii.eqb c d then true else str_contains c s'
  end.

Fixpoint parse_hex_digits (s : string) (acc : Z) : option Z :=
  match s with
  | EmptyString => Some acc
  | String c s' =>
      match HexString.ascii_to_digit c with
      | Some d => parse_hex_digits s' (16 * acc + Z.of_N d)
      | None => None
      end
  end.

(** [int(s, base=16)] on an unsigned literal: an optional [0x]/[0X] prefix
    and at least one hexadecimal digit; anything else is a [ValueError].
    (Signs, digit-separating underscores and surrounding white space, which
    Python also reads, are not part of this model.) *)
Definition int_base16 (s : string) : pyres Z :=
  let digits :=
    match s with
    | String "0" (String "x" r) => r
    | String "0" (String "X" r) => r
    | _ => s
    end in
  match digits with
  | EmptyString => Raise ValueError
  | _ => match parse_hex_digits digits 0 with
         | Some n => Ok n
         | None => Raise ValueError
         end
  end.

Definition hex2rgb (hexcolor : string) : pyres (list Z) :=
  let hexcolor := if str_contains "#" hexcolor then str_from 1 hexcolor else hexcolor in
  hexcolor ← int_base16 ("0x" ++ hexcolor);
  Ok [Z.land (Z.shiftr hexcolor 16) 255;
      Z.land (Z.shiftr hexcolor 8) 255;
      Z.land hexcolor 255].

Definition rgb2hex (rgb : list Z) : string :=
  fold_left
    (fun hexcolor each =>
       let hex_each := upper (str_from 2 (hex each)) in
       let hex_each :=
         if (String.length hex_each <? 2)%nat then hex_each ++ "0" else hex_each in
       hexcolor ++ hex_each)
    rgb "#".

(** What one turn of the loop of [rgb2hex] appends for the component [each] *)
Definition hex_each (each : Z) : string :=
  let h := upper (str_from 2 (hex each)) in
  if (String.length h <? 2)%nat then (h ++ "0")%string else h.

(** [hex_each c] is two hexadecimal digits that read back as [c]. *)
Definition two_digits_of (c : Z) : bool :=
  match hex_each c with
  | String a (String b EmptyString) =>
      match HexString.ascii_to_digit a, HexString.ascii_to_digit b with
      | Some da, Some db => (16 * Z.of_N da + Z.of_N db =? c)%Z
      | _, _ => false
      end
  | _ => false
  end.

End Color.

(** ** NumPy floating-point values *)

Inductive npfloat : Type :=
| Fin (q : Q)
| PInf
| NInf
| NaN.

#[local] Open Scope Q_scope.

Definition isnan (x : npfloat) : bool :=
  match x with NaN => true | _ => false end.

(** An infinity with the sign of the finite value [q] ([0 * inf] is [nan]). *)
Definition inf_signed (q : Q) (pos : npfloat) (neg : npfloat) : npfloat :=
  match q ?= 0 with
  | Eq => NaN
  | Gt => pos
  | Lt => neg
  end.

Definition fadd (x y : npfloat) : npfloat :=
  match x, y with
  | NaN, _ | _, NaN => NaN
  | Fin a, Fin b => Fin (a + b)
  | PInf, NInf | NInf, PInf => NaN
  | PInf, _ | _, PInf => PInf
  | NInf, _ | _, NInf => NInf
  end.

Definition fneg (x : npfloat) : npfloat :=
  match x with
  | Fin a => Fin (- a)
  | PInf => NInf
  | NInf => PInf
  | NaN => NaN
  end.

Definition fsub (x y : npfloat) : npfloat := fadd x (fneg y).

Definition fmul (x y : npfloat) : npfloat :=
  match x, y with
  | NaN, _ | _, NaN => NaN
  | Fin a, Fin b => Fin (a * b)
  | Fin a, PInf | PInf, Fin a => inf_signed a PInf NInf
  | Fin a, NInf | NInf, Fin a => inf_signed a NInf PInf
  | PInf, PInf | NInf, NInf => PInf
  | PInf, NInf | NInf, PInf => NInf
  end.

(** True division of arrays never raises: a zero divisor gives [nan] (for
    [0/0]) or an infinity, with a warning only. *)
Definition fdiv (x y : npfloat) : npfloat :=
  match x, y with
  | NaN, _ | _, NaN => NaN
  | Fin a, Fin b =>
      if Qeq_bool b 0 then inf_signed a PInf NInf else Fin (a / b)
  | Fin _, (PInf | NInf) => Fin 0
  | (PInf | NInf), (PInf | NInf) => NaN
  | PInf, Fin b => if Qle_bool 0 b then PInf else NInf
  | NInf, Fin b => if Qle_bool 0 b then NInf else PInf
  end.

(** [x <= y] on floats: false as soon as one side is [nan]. *)
Definition fleb (x y : npfloat) : bool :=
  match x, y with
  | NaN, _ | _, NaN => false
  | Fin a, Fin b => Qle_bool a b
  | NInf, _ | _, PInf => true
  | _, _ => false
  end.

(** The same value: equal rationals, or the same special value. *)
Definition feq (x y : npfloat) : Prop :=
  match x, y with
  | Fin a, Fin b => a == b
  | PInf, PInf | NInf, NInf | NaN, NaN => True
  | _, _ => False
  end.

(** An integer count as a float *)
Definition of_count (n : nat) : npfloat := Fin (inject_Z (Z.of_nat n)).

(** [np.min(a)], [np.max(a)]: a [ValueError] on an empty array. *)
Definition np_min (a : list Q) : pyres Q :=
  match a with
  | [] => Raise ValueError
  | x :: r => Ok (foldr Qmin x r)
  end.

Definition np_max (a : list Q) : pyres Q :=
  match a with
  | [] => Raise ValueError
  | x :: r => Ok (foldr Qmax x r)
  end.

(** ** pandas Series *)

(** A Series: index labels paired with values, in order. *)
Definition Series (K : Type) : Type := list (K * npfloat).

Definition index {K} (s : Series K) : list K := s.*1.
Definition values {K} (s : Series K) : list npfloat := s.*2.

(** [pd.Series(values, index=index)]: the lengths must agree. *)
Definition mk_series {K} (vals : list npfloat) (idx : list K) : pyres (Series K) :=
  if (length vals =? length idx)%nat then Ok (zip idx vals) else Raise ValueError.

(** Python's [sum] over floats *)
Definition fsum (l : list npfloat) : npfloat := foldr fadd (Fin 0) l.

(** [Series.sum()] skips [nan] entries; the empty sum is [0]. *)
Definition series_sum {K} (s : Series K) : npfloat :=
  fsum (filter (fun v => isnan v = false) (values s)).

(** [Series.max()] skips [nan] entries; [nan] when nothing is left. *)
Definition fmax (x y : npfloat) : npfloat := if fleb x y then y else x.

Definition fmax_list (l : list npfloat) : npfloat :=
  match l with
  | [] => NaN
  | v :: r => foldr fmax v r
  end.

Definition series_max {K} (s : Series K) : npfloat :=
  fmax_list (filter (fun v => isnan v = false) (values s)).

(** [s / c] for a scalar [c] *)
Definition series_div {K} (s : Series K) (c : npfloat) : Series K :=
  map (fun kv => (kv.1, fdiv kv.2 c)) s.

(** End of the slice [s[:v]] of a Series with a float index.  On such an
    index the slice is by label and keeps its end point; on an ascending
    index, which is what [distribution_pdf] builds, it stops just past the last
    label [<= v]. *)
Fixpoint slice_bound_right (idx : list Q) (v : Q) : nat :=
  match idx with
  | [] => O
  | k :: r => if Qle_bool k v then S (slice_bound_right r v) else O
  end.

Definition slice_to (s : Series Q) (v : Q) : Series Q :=
  take (slice_bound_right (index s) v) s.

(** ** [normlize] *)

(** [data - xmin] and the operations after it act on every element of the
    array. *)
Definition normlize (data : list Q) (lower upper : Q) : pyres (list npfloat) :=
  xmax ← np_max data;
  xmin ← np_min data;
  Ok (map (fun x =>
             fadd (fdiv (fmul (fsub (Fin upper) (Fin lower)) (fsub (Fin x) (Fin xmin)))
                        (fsub (Fin xmax) (Fin xmin)))
                  (Fin lower))
          data).

(** ** [np.histogram] with an integer number of bins and [density=True] *)

(** The equal-width path of [np.histogram]: the outer edges, [bins + 1]
    edges from [linspace], a bin index computed for each value, the counts
    from [bincount], and the densities [n / db / n.sum()].  NumPy walks the
    data in blocks and, after truncating, moves an index by one when rounding
    put a value on the wrong side of an edge; in exact arithmetic a block
    changes nothing and the index is already the right one
    ([bin_index_in_bin] below), so neither is part of the model. *)

(** The range to bin: that of the data, [(0, 1)] for no data, and widened by
    one half on each side when the data has a single value. *)
Definition get_outer_edges (a : list Q) : Q * Q :=
  match a with
  | [] => (0, 1)
  | x :: r =>
      let first_edge := foldr Qmin x r in
      let last_edge := foldr Qmax x r in
      if Qeq_bool first_edge last_edge
      then (first_edge - (1 # 2), last_edge + (1 # 2))
      else (first_edge, last_edge)
  end.

(** [np.linspace(start, stop, num)], end point included *)
Definition linspace (start stop : Q) (num : nat) : list Q :=
  let step := (stop - start) / inject_Z (Z.of_nat (num - 1)) in
  map (fun i => inject_Z (Z.of_nat i) * step + start) (seq 0 num).

(** [astype(np.intp)]: truncation toward zero *)
Definition Qtrunc (q : Q) : Z := Z.quot (Qnum q) (Zpos (Qden q)).

(** The bin of a value: its scaled offset truncated, a value on the last edge
    going to the last bin. *)
Definition bin_index (first_edge last_edge : Q) (n_equal_bins : Z) (x : Q) : Z :=
  let f_index := (x - first_edge) / (last_edge - first_edge) * inject_Z n_equal_bins in
  let i := Qtrunc f_index in
  if (i =? n_equal_bins)%Z then (i - 1)%Z else i.

(** [np.bincount(indices, minlength=n)] for indices below [n] *)
Definition bincount (indices : list Z) (n : nat) : list nat :=
  map (fun i => length (filter (fun j => j = Z.of_nat i) indices)) (seq 0 n).

(** [np.diff] *)
Definition diff (l : list Q) : list Q :=
  zip_with (fun a b => b - a) l (tail l).

(** Returns the densities [n / db / n.sum()] and the [bins + 1] bin edges. *)
Definition histogram (a : list Q) (bins : Z) : pyres (list npfloat * list Q) :=
  if (bins <? 1)%Z then Raise ValueError
  else
    let '(first_edge, last_edge) := get_outer_edges a in
    let bin_edges := linspace first_edge last_edge (Z.to_nat bins + 1) in
    let keep := filter (fun x => Qle_bool first_edge x && Qle_bool x last_edge = true) a in
    let n := bincount (map (bin_index first_edge last_edge bins) keep) (Z.to_nat bins) in
    let db := diff bin_edges in
    let total := sum_list n in
    Ok (zip_with (fun c d => fdiv (fdiv (of_count c) (Fin d)) (of_count total)) n db,
        bin_edges).

(** ** [distribution_pdf] and [distribution_cdf] *)

(** [np.roll(x, -1)] *)
Definition roll_back (x : list Q) : list Q := tail x ++ take 1 x.

(** [(xdata + np.roll(xdata, -1))[:-1] / 2.0] *)
Definition bin_centers (xdata : list Q) : list Q :=
  map (fun s => s / 2) (removelast (zip_with Qplus xdata (roll_back xdata))).

(** [data] is [None] or a list (a [pandas.Series] is replaced by its values);
    [bins] is [None] or an integer. *)
Definition distribution_pdf (data : option (list Q)) (bins : option Z)
  : pyres (option (Series Q)) :=
  match data with
  | None => Ok None
  | Some data =>
      let bins := match bins with None => 200%Z | Some b => b end in
      '(density, xdata) ← histogram data bins;
      let xdata := bin_centers xdata in
      data_pdf ← mk_series density xdata;
      Ok (Some data_pdf)
  end.

Definition distribution_cdf (data : option (list Q)) (bins : option Z)
  : pyres (Series Q) :=
  pdf ← distribution_pdf data bins;
  match pdf with
  | None => Raise AttributeError
  | Some pdf =>
      let cdf := map (fun ind => series_sum (slice_to pdf ind)) (index pdf) in
      cdf ← mk_series cdf (index pdf);
      Ok (series_div cdf (series_max cdf))
  end.

(** ** [distribution_fre] *)

(** [Series.value_counts()]: the occurrences of each distinct value, collected
    in a hash table and listed by decreasing count. *)
Definition count_table (data : list Z) : gmap Z nat :=
  foldr (fun x m => <[x := S (default O (m !! x))]> m) ∅ data.

Definition by_count_desc : relation (Z * nat) := fun p q => (q.2 <= p.2)%nat.
Definition by_label : relation (Z * nat) := fun p q => (p.1 <= q.1)%Z.

#[global] Instance by_count_desc_dec : RelDecision by_count_desc :=
  fun p q => decide (q.2 <= p.2)%nat.
#[global] Instance by_label_dec : RelDecision by_label :=
  fun p q => decide (p.1 <= q.1)%Z.

Definition value_counts (data : list Z) : list (Z * nat) :=
  merge_sort by_count_desc (map_to_list (count_table data)).

(** [Series.sort_index()] *)
Definition sort_index (s : list (Z * nat)) : list (Z * nat) :=
  merge_sort by_label s.

(** [data] is [None] or a list of values, here integers (a [pandas.Series]
    is used as it is). *)
Definition distribution_fre (data : option (list Z)) : pyres (option (Series Z)) :=
  match data with
  | None => Ok None
  | Some data =>
      let data_count := sort_index (value_counts data) in
      let total := sum_list_with snd data_count in
      let data_p := map (fun kc => (kc.1, fdiv (of_count kc.2) (of_count total)))
                        data_count in
      Ok (Some data_p)
  end.

(** ** Quantities named in the statements below *)

#[local] Open Scope Q_scope.

(** The value [normlize] computes for one element, once the extrema are known. *)
Definition normlize_elem (lower upper xmin xmax x : Q) : npfloat :=
  fadd (fdiv (fmul (fsub (Fin upper) (Fin lower)) (fsub (Fin x) (Fin xmin)))
             (fsub (Fin xmax) (Fin xmin)))
       (Fin lower).

(** Number of occurrences of [k] in [data] *)
Definition occurrences (k : Z) (data : list Z) : nat :=
  length (filter (fun x => x = k) data).

(** The table [distribution_fre] divides by its total *)
Definition data_count (data : list Z) : list (Z * nat) :=
  sort_index (value_counts data).

(** The [i]-th of the [n + 1] edges that [linspace] puts on [[first, last]] *)
Definition edge (first_edge last_edge : Q) (n i : nat) : Q :=
  inject_Z (Z.of_nat i) * ((last_edge - first_edge) / inject_Z (Z.of_nat n)) + first_edge.

(** The number of values of [a] that [histogram] puts in bin [i] *)
Definition bin_population (a : list Q) (bins : Z) (i : nat) : nat :=
  let '(first_edge, last_edge) := get_outer_edges a in
  let keep := filter (fun x => Qle_bool first_edge x && Qle_bool x last_edge = true) a in
  length (filter (fun j => j = Z.of_nat i) (map (bin_index first_edge last_edge bins) keep)).

Definition qsum (l : list Q) : Q := foldr Qplus 0 l.

(** The density [n / db / n.sum()] of bin [i] *)
Definition bin_density (a : list Q) (bins : Z) (first_edge last_edge : Q) (i : nat)
  : npfloat :=
  let n := Z.to_nat bins in
  fdiv (fdiv (of_count (bin_population a bins i))
             (Fin (edge first_edge last_edge n (S i) - edge first_edge last_edge n i)))
       (of_count (sum_list (map (bin_population a bins) (seq 0 n)))).

Definition bin_center (bins : Z) (first_edge last_edge : Q) (i : nat) : Q :=
  let n := Z.to_nat bins in
  (edge first_edge last_edge n i + edge first_edge last_edge n (S i)) / 2.

(** The density of bin [i] as a rational, for a non-empty sample *)
Definition pdf_rat (a : list Q) (bins : Z) (first_edge last_edge : Q) (i : nat) : Q :=
  let n := Z.to_nat bins in
  inject_Z (Z.of_nat (bin_population a bins i))
  / (edge first_edge last_edge n (S i) - edge first_edge last_edge n i)
  / inject_Z (Z.of_nat (length a)).

(** The body of [distribution_cdf] once the density is at hand *)
Definition cdf_of_pdf (pdf : Series Q) : pyres (Series Q) :=
  let cdf := map (fun ind => series_sum (slice_to pdf ind)) (index pdf) in
  cdf ← mk_series cdf (index pdf);
  Ok (series_div cdf (series_max cdf)).

(** The reference definition of the cumulative density, in the words of the
    specification: compute the density; for each key [v], in the ascending
    order in which the density lists its keys, sum density times bin width
    over the bins with key [<= v]; divide every entry by the largest one. *)
Definition cumulative_density_ref (data : list Q) (bin_count : Z) : pyres (Series Q) :=
  pdf ← distribution_pdf (Some data) (Some bin_count);
  match pdf with
  | None => Raise AttributeError
  | Some pdf =>
      lo ← np_min data;
      hi ← np_max data;
      let bin_width := (hi - lo) / inject_Z bin_count in
      let mass_upto v :=
        fsum (map (fun kd => fmul kd.2 (Fin bin_width))
                  (filter (fun kd => Qle_bool kd.1 v = true) pdf)) in
      let prefix := map mass_upto (index pdf) in
      let top := fmax_list prefix in
      Ok (zip (index pdf) (map (fun x => fdiv x top) prefix))
  end.

(** Two Series with the same keys and the same values *)
Definition series_equiv (s t : Series Q) : Prop :=
  Forall2 (fun p r => p.1 == r.1 /\ feq p.2 r.2) s t.

(** The sum of the first [k] terms of [q] *)
Definition partial_sum (q : nat -> Q) (k : nat) : Q := qsum (map q (seq 0 k)).

#[local] Close Scope Q_scope.

(** ** Quantities named in the further properties *)

#[local] Open Scope Q_scope.

(** [x] lies in bin [i] of the [n] bins on [[first_edge, last_edge]]: on or
    after its left edge and before its right edge, the right edge included
    for the last bin. *)
Definition in_bin (first_edge last_edge : Q) (n i : nat) (x : Q) : bool :=
  Qle_bool (edge first_edge last_edge n i) x
  && (negb (Qle_bool (edge first_edge last_edge n (S i)) x)
      || ((S i =? n)%nat && Qle_bool x (edge first_edge last_edge n (S i)))).

(** [x < y] *)
Definition Qltb (x y : Q) : bool := negb (Qle_bool y x).

#[local] Close Scope Q_scope.

(** What the round trip [hex2rgb (rgb2hex _)] makes of a component of
    [[0, 255]]: a component below 16 comes back multiplied by 16. *)
Definition misplaced_pad (c : Z) : Z := if (c <? 16)%Z then (16 * c)%Z else c.

(** [Color.hex_each c] is two hexadecimal digits that read as [v]. *)
Definition reads_back_as (c v : Z) : bool :=
  match Color.hex_each c with
  | String a (String b EmptyString) =>
      match HexString.ascii_to_digit a, HexString.ascii_to_digit b with
      | Some da, Some db => (16 * Z.of_N da + Z.of_N db =? v)%Z
      | _, _ => false
      end
  | _ => false
  end.

(** ** Listing files *)

Module Files.

#[local] Open Scope string_scope.

(** An [OSError] of [os.listdir] (no such directory, not a directory, no
    permission), or the [TypeError] of [os.path.join] on an argument that is
    no path. *)
Inductive oserror : Type :=
| OSError
| TypeError.

(** What the functions ask of the file system: the entries of a directory
    ([None] when [os.listdir] raises), whether a path is a directory, and the
    [(dirpath, dirnames, filenames)] triples that [os.walk] yields from a
    path. *)
Record filesystem : Type := {
  listdir : string -> option (list string);
  isdir : string -> bool;
  walk : string -> list (string * list string * list string)
}.

(** [p.rfind(c)]: the last index of [c] in [p], [-1] when there is none *)
Fixpoint rfind_from (c : ascii) (p : string) (i found : Z) : Z :=
  match p with
  | EmptyString => found
  | String d p' => rfind_from c p' (i + 1)%Z (if Ascii.eqb c d then i else found)
  end.

Definition rfind (c : ascii) (p : string) : Z := rfind_from c p 0%Z (-1)%Z.

(** [s[:k]] *)
Fixpoint str_to (k : nat) (s : string) : string :=
  match k, s with
  | O, _ => EmptyString
  | S k', String c s' => String c (str_to k' s')
  | S _, EmptyString => EmptyString
  end.

(** The loop of [splitext] over the characters from [filenameIndex] up to
    the last dot: [true] as soon as one of them is no dot. *)
Fixpoint some_non_dot (p : string) (filenameIndex steps : nat) : bool :=
  match steps with
  | O => false
  | S steps' =>
      match String.get filenameIndex p with
      | Some c =>
          if Ascii.eqb c "." then some_non_dot p (S filenameIndex) steps' else true
      | None => true
      end
  end.

(** [os.path.splitext] (POSIX): the extension starts at the last dot of the
    last path component, leading dots of that component not counting. *)
Definition splitext (p : string) : string * string :=
  let sepIndex := rfind "/" p in
  let dotIndex := rfind "." p in
  if (sepIndex <? dotIndex)%Z
     && some_non_dot p (Z.to_nat (sepIndex + 1)) (Z.to_nat (dotIndex - (sepIndex + 1)))
  then (str_to (Z.to_nat dotIndex) p, Color.str_from (Z.to_nat dotIndex) p)
  else (p, EmptyString).

Definition starts_with_sep (b : string) : bool :=
  match b with
  | String "/" _ => true
  | _ => false
  end.

Fixpoint ends_with_sep (a : string) : bool :=
  match a with
  | EmptyString => false
  | String c EmptyString => Ascii.eqb c "/"
  | String _ a' => ends_with_sep a'
  end.

(** [os.path.join(a, b)] (POSIX) *)
Definition join (a b : string) : string :=
  if starts_with_sep b then b
  else if match a with EmptyString => true | _ => ends_with_sep a end then a ++ b
  else a ++ "/" ++ b.

(** [os.path.join(dir, b)] where [dir] is the built-in function of that
    name, as in [get_files]: its first argument is no path. *)
Definition join_builtin_dir (b : string) : oserror + string := inl TypeError.

(** A list comprehension whose element expression may raise *)
Fixpoint comprehension {A B : Type} (f : A -> oserror + B) (l : list A)
  : oserror + list B :=
  match l with
  | [] => inr []
  | x :: r =>
      match f x with
      | inl e => inl e
      | inr y =>
          match comprehension f r with
          | inl e => inl e
          | inr ys => inr (y :: ys)
          end
      end
  end.

(** The entries with the extension [filetype] *)
Definition selected (filetype : string) (names : list string) : list string :=
  filter (fun filename => (splitext filename).2 = filetype) names.

(** The defaults are [filetype='.csv'] and [return_type='abspath']. *)
Definition get_files (fs : filesystem) (filedir filetype return_type : string)
  : oserror + list string :=
  match listdir fs filedir with
  | None => inl OSError
  | Some names =>
      let files :=
        map (fun filename => (splitext filename).1)
            (filter (fun filename => (splitext filename).2 = filetype) names) in
      if String.eqb return_type "name" then inr files
      else if String.eqb return_type "abspath"
           then comprehension (fun each => join_builtin_dir (each ++ filetype)) files
           else inr files
  end.

Definition get_files_all (fs : filesystem) (filedir filetype : string) : list string :=
  flat_map
    (fun each : string * list string * list string =>
       let '(dirpath, _, filenames) := each in
       if (1 <=? length filenames)%nat
       then map (fun file_i => join dirpath file_i)
                (filter (fun file_i => (splitext file_i).2 = filetype) filenames)
       else [])
    (walk fs filedir).

Definition get_subdir (fs : filesystem) (sup_dir : string) : oserror + list string :=
  match listdir fs sup_dir with
  | None => inl OSError
  | Some names => inr (filter (fun abs_path => isdir fs abs_path = true)
                              (map (fun subdir => join sup_dir subdir) names))
  end.

(** A directory [data] holding four entries and no sub-directory *)
Definition sample_fs : filesystem := {|
  listdir := fun p =>
    if String.eqb p "data" then Some ["a.csv"; "notes.txt"; ".csv"; "b.csv"] else None;
  isdir := fun p => String.eqb p "data";
  walk := fun p =>
    if String.eqb p "data"
    then [("data", [], ["a.csv"; "notes.txt"; ".csv"; "b.csv"])]
    else []
|}.

(** A directory [top] holding a sub-directory and a file, known to the
    system with and without a trailing separator *)
Definition sample_tree : filesystem := {|
  listdir := fun p =>
    if String.eqb p "top" || String.eqb p "top/" then Some ["sub"; "f.txt"] else None;
  isdir := fun p => String.eqb p "top/sub";
  walk := fun _ => []
|}.

End Files.

(** * Properties *)

(** ** Colour conversion *)

Section ColorFacts.
Import Color.
#[local] Open Scope Z_scope.

Example hex2rgb_doc : hex2rgb "#6F1958" = Ok [111; 25; 88].
Proof. reflexivity. Qed.

Example rgb2hex_doc : rgb2hex [111; 25; 88] = "#6F1958"%string.
Proof. reflexivity. Qed.

(** A component below 16 has a one-digit rendering, and the padding zero is
    appended after that digit instead of before it. *)
Example rgb2hex_small : rgb2hex [1; 2; 3] = "#102030"%string.
Proof. reflexivity. Qed.

(** C10 (code defect).  [hex2rgb (rgb2hex rgb) = rgb] fails at [[1; 2; 3]],
    a triple of integers in [0, 255]: the round trip returns [[16; 32; 48]]. *)
Theorem rgb_hex_roundtrip_breaks :
  hex2rgb (rgb2hex [1; 2; 3]) = Ok [16; 32; 48]
  /\ hex2rgb (rgb2hex [1; 2; 3]) <> Ok [1; 2; 3].
Proof. split; [reflexivity | discriminate]. Qed.

Lemma two_digits_table :
  forallb (fun c => if (c =? 0) || (16 <=? c) then two_digits_of c else true)
          (map Z.of_nat (seq 0 256)) = true.
Proof. by vm_compute. Qed.

Lemma two_digits_of_ok (c : Z) :
  c = 0 \/ 16 <= c <= 255 -> two_digits_of c = true.
Proof.
  intros Hc. pose proof two_digits_table as Ht.
  rewrite forallb_forall in Ht. specialize (Ht c).
  assert (Hin : In c (map Z.of_nat (seq 0 256))).
  { apply in_map_iff. exists (Z.to_nat c). split; [lia|]. apply in_seq. lia. }
  specialize (Ht Hin).
  destruct Hc as [->|Hc]; [exact Ht|].
  replace (16 <=? c) with true in Ht by lia. by rewrite orb_true_r in Ht.
Qed.

Lemma two_digits_inv (c : Z) :
  two_digits_of c = true ->
  exists a b da db,
    hex_each c = String a (String b EmptyString)
    /\ HexString.ascii_to_digit a = Some da
    /\ HexString.ascii_to_digit b = Some db
    /\ 16 * Z.of_N da + Z.of_N db = c.
Proof.
  unfold two_digits_of. intros H.
  destruct (hex_each c) as [|a [|b [|? ?]]]; try discriminate.
  destruct (HexString.ascii_to_digit a) as [da|] eqn:Ea; [|discriminate].
  destruct (HexString.ascii_to_digit b) as [db|] eqn:Eb; [|discriminate].
  exists a, b, da, db. repeat split; try done. lia.
Qed.

Lemma parse_two_digits (a b : ascii) (da db : N) (rest : string) (acc : Z) :
  HexString.ascii_to_digit a = Some da ->
  HexString.ascii_to_digit b = Some db ->
  parse_hex_digits (String a (String b rest)) acc
  = parse_hex_digits rest (16 * (16 * acc + Z.of_N da) + Z.of_N db).
Proof. intros Ha Hb. cbn [parse_hex_digits]. by rewrite Ha, Hb. Qed.

Lemma land_shift_packed (r g b n : Z) :
  0 <= r <= 255 -> 0 <= g <= 255 -> 0 <= b <= 255 ->
  n = r * 65536 + g * 256 + b ->
  Z.land (Z.shiftr n 16) 255 = r /\ Z.land (Z.shiftr n 8) 255 = g /\ Z.land n 255 = b.
Proof.
  intros Hr Hg Hb ->.
  change 255 with (Z.ones 8). rewrite !Z.land_ones, !Z.shiftr_div_pow2 by lia.
  change (2 ^ 16) with 65536. change (2 ^ 8) with 256.
  repeat split; Z.div_mod_to_equations; lia.
Qed.

Lemma rgb2hex_three (r g b : Z) :
  rgb2hex [r; g; b] = ((("#" ++ hex_each r) ++ hex_each g) ++ hex_each b)%string.
Proof. reflexivity. Qed.

Lemma hex2rgb_hash (s : string) :
  hex2rgb (String "#" s)
  = (n ← int_base16 (String "0" (String "x" s));
     Ok [Z.land (Z.shiftr n 16) 255; Z.land (Z.shiftr n 8) 255; Z.land n 255]).
Proof. reflexivity. Qed.

Lemma int_base16_prefixed (a : ascii) (s : string) :
  int_base16 (String "0" (String "x" (String a s)))
  = match parse_hex_digits (String a s) 0 with
    | Some n => Ok n
    | None => Raise ValueError
    end.
Proof. reflexivity. Qed.

(** The round trip does hold when every component is [0] or has two
    hexadecimal digits. *)
Theorem rgb_hex_roundtrip_two_digits (r g b : Z) :
  r = 0 \/ 16 <= r <= 255 -> g = 0 \/ 16 <= g <= 255 -> b = 0 \/ 16 <= b <= 255 ->
  hex2rgb (rgb2hex [r; g; b]) = Ok [r; g; b].
Proof.
  intros Hr Hg Hb. rewrite rgb2hex_three.
  destruct (two_digits_inv r (two_digits_of_ok r Hr)) as (a1 & b1 & x1 & y1 & -> & Ha1 & Hb1 & E1).
  destruct (two_digits_inv g (two_digits_of_ok g Hg)) as (a2 & b2 & x2 & y2 & -> & Ha2 & Hb2 & E2).
  destruct (two_digits_inv b (two_digits_of_ok b Hb)) as (a3 & b3 & x3 & y3 & -> & Ha3 & Hb3 & E3).
  change ((("#" ++ String a1 (String b1 "")) ++ String a2 (String b2 ""))
          ++ String a3 (String b3 ""))%string
    with (String "#" (String a1 (String b1 (String a2 (String b2
            (String a3 (String b3 ""))))))).
  rewrite hex2rgb_hash, int_base16_prefixed.
  rewrite (parse_two_digits a1 b1 x1 y1) by done.
  rewrite (parse_two_digits a2 b2 x2 y2) by done.
  rewrite (parse_two_digits a3 b3 x3 y3) by done.
  cbn [parse_hex_digits mbind pyres_bind].
  match goal with
  | |- context [Z.shiftr ?v 16] =>
      destruct (land_shift_packed r g b v) as (-> & -> & ->); [lia | lia | lia | lia | done]
  end.
Qed.

End ColorFacts.

(** ** Minimum and maximum of an array *)

Section MinMax.
#[local] Open Scope Q_scope.

Lemma foldr_Qmin_le (x : Q) (r : list Q) (y : Q) :
  y ∈ x :: r -> foldr Qmin x r <= y.
Proof.
  induction r as [|z r IH]; simpl; intros Hy.
  - apply list_elem_of_singleton in Hy. subst. apply Qle_refl.
  - assert (Hc : y = z \/ y ∈ x :: r).
    { inversion Hy as [|? ? ? Hy']; subst; [right; left|].
      inversion Hy'; subst; [by left | right; by right]. }
    destruct Hc as [->|Hc].
    + apply Q.le_min_l.
    + eapply Qle_trans; [apply Q.le_min_r | by apply IH].
Qed.

Lemma foldr_Qmax_ge (x : Q) (r : list Q) (y : Q) :
  y ∈ x :: r -> y <= foldr Qmax x r.
Proof.
  induction r as [|z r IH]; simpl; intros Hy.
  - apply list_elem_of_singleton in Hy. subst. apply Qle_refl.
  - assert (Hc : y = z \/ y ∈ x :: r).
    { inversion Hy as [|? ? ? Hy']; subst; [right; left|].
      inversion Hy'; subst; [by left | right; by right]. }
    destruct Hc as [->|Hc].
    + apply Q.le_max_l.
    + eapply Qle_trans; [by apply IH | apply Q.le_max_r].
Qed.

Lemma np_min_le (a : list Q) (m y : Q) : np_min a = Ok m -> y ∈ a -> m <= y.
Proof.
  destruct a as [|x r]; simpl; [discriminate|].
  intros [= <-]. apply foldr_Qmin_le.
Qed.

Lemma np_max_ge (a : list Q) (m y : Q) : np_max a = Ok m -> y ∈ a -> y <= m.
Proof.
  destruct a as [|x r]; simpl; [discriminate|].
  intros [= <-]. apply foldr_Qmax_ge.
Qed.

End MinMax.

(** ** [normlize] *)

Section Normlize.
#[local] Open Scope Q_scope.

Lemma normlize_unfold (data : list Q) (lower upper xmin xmax : Q) :
  np_min data = Ok xmin -> np_max data = Ok xmax ->
  normlize data lower upper = Ok (map (normlize_elem lower upper xmin xmax) data).
Proof. intros Hmin Hmax. unfold normlize. rewrite Hmax, Hmin. reflexivity. Qed.

Lemma normlize_elem_regular (lower upper xmin xmax x : Q) :
  ~ xmax == xmin ->
  exists y, normlize_elem lower upper xmin xmax x = Fin y
            /\ y == lower + (upper - lower) * (x - xmin) / (xmax - xmin).
Proof.
  intros Hne. unfold normlize_elem; simpl.
  destruct (Qeq_bool (xmax + - xmin) 0) eqn:E.
  - apply Qeq_bool_iff in E. exfalso. apply Hne. lra.
  - eexists; split; [reflexivity|]. field. intros H. apply Hne. lra.
Qed.

Lemma normlize_elem_degenerate (lower upper xmin xmax x : Q) :
  xmax == xmin -> x == xmin ->
  normlize_elem lower upper xmin xmax x = NaN.
Proof.
  intros Hm Hx. unfold normlize_elem; simpl.
  assert (E : Qeq_bool (xmax + - xmin) 0 = true) by (apply Qeq_bool_iff; lra).
  rewrite E. unfold inf_signed.
  assert (Z0 : (upper + - lower) * (x + - xmin) == 0) by (rewrite Hx; ring).
  apply Qeq_alt in Z0. rewrite Z0. reflexivity.
Qed.



(** C4, as stated, fails: [normlize([5, 5, 5], 0, 1)] raises nothing and
    returns [[nan, nan, nan]]. *)
Lemma normlize_equal_values_no_error :
  normlize [5; 5; 5] 0 1 = Ok [NaN; NaN; NaN]
  /\ forall e, normlize [5; 5; 5] 0 1 <> Raise e.
Proof. split; [reflexivity | discriminate]. Qed.

(** C4, amended.  When all values of a non-empty input are equal
    ([max(data) == min(data)]), [normlize] raises no error: it returns a
    collection of the length of [data] whose entries are all [nan]. *)
Theorem normlize_equal_values_nan (data : list Q) (lower upper xmin xmax : Q) :
  np_min data = Ok xmin -> np_max data = Ok xmax -> xmax == xmin ->
  normlize data lower upper = Ok (replicate (length data) NaN).
Proof.
  intros Hmin Hmax Heq.
  rewrite (normlize_unfold data lower upper xmin xmax Hmin Hmax). f_equal.
  assert (Hall : forall x, x ∈ data -> normlize_elem lower upper xmin xmax x = NaN).
  { intros x Hx. apply normlize_elem_degenerate; [exact Heq|].
    pose proof (np_min_le data xmin x Hmin Hx).
    pose proof (np_max_ge data xmax x Hmax Hx). lra. }
  clear Hmin Hmax. induction data as [|x r IH]; simpl; [reflexivity|].
  rewrite Hall by left. f_equal. apply IH. intros y Hy. apply Hall. by right.
Qed.

Lemma normlize_equal_values_nan_witness :
  np_min [5; 5; 5] = Ok 5 /\ np_max [5; 5; 5] = Ok 5 /\ 5 == 5
  /\ normlize [5; 5; 5] 0 1 = Ok (replicate 3 NaN).
Proof.
  split; [reflexivity|]. split; [reflexivity|]. split; [reflexivity|].
  apply (normlize_equal_values_nan [5; 5; 5] 0 1 5 5); reflexivity.
Defined.

End Normlize.

(** ** [distribution_fre] *)

Section Frequency.

Lemma occurrences_cons (k x : Z) (data : list Z) :
  occurrences k (x :: data)
  = if decide (x = k) then S (occurrences k data) else occurrences k data.
Proof. unfold occurrences. rewrite filter_cons. by case_decide. Qed.

Lemma occurrences_pos (k : Z) (data : list Z) :
  k ∈ data <-> (0 < occurrences k data)%nat.
Proof.
  induction data as [|x r IH].
  - split; [inversion 1 | cbn; lia].
  - rewrite occurrences_cons, elem_of_cons. case_decide; subst.
    + split; [lia | by left].
    + rewrite IH. split; [intros [?|?]; [congruence | done] | by right].
Qed.

Lemma occurrences_perm (k : Z) (l1 l2 : list Z) :
  l1 ≡ₚ l2 -> occurrences k l1 = occurrences k l2.
Proof. intros H. unfold occurrences. by rewrite H. Qed.

(** The hash table holds, for each observed value, its number of occurrences. *)
Lemma count_table_lookup (data : list Z) (k : Z) :
  count_table data !! k
  = if decide (occurrences k data = O) then None else Some (occurrences k data).
Proof.
  induction data as [|x r IH]; [done|].
  cbn [count_table foldr]. fold (count_table r).
  rewrite lookup_insert, occurrences_cons.
  destruct (decide (x = k)) as [->|Hne].
  - rewrite IH. case_decide as Hc; rewrite decide_False by lia; simpl; [by rewrite Hc|done].
  - exact IH.
Qed.

Lemma count_table_perm (l1 l2 : list Z) :
  l1 ≡ₚ l2 -> count_table l1 = count_table l2.
Proof.
  intros H. apply map_eq. intros k.
  by rewrite !count_table_lookup, (occurrences_perm k l1 l2 H).
Qed.

Lemma count_table_total (data : list Z) :
  sum_list_with snd (map_to_list (count_table data)) = length data.
Proof.
  induction data as [|x r IH]; [unfold count_table; simpl; by rewrite map_to_list_empty|].
  cbn [count_table foldr length]. fold (count_table r).
  destruct (count_table r !! x) as [c|] eqn:E; simpl.
  - rewrite <- (insert_delete_eq (count_table r)).
    rewrite map_to_list_insert by apply lookup_delete_eq.
    rewrite <- IH, <- (map_to_list_delete _ _ _ E). simpl. lia.
  - rewrite map_to_list_insert by done. simpl. lia.
Qed.

Lemma data_count_perm (data : list Z) :
  data_count data ≡ₚ map_to_list (count_table data).
Proof.
  unfold data_count, sort_index, value_counts.
  by rewrite !merge_sort_Permutation.
Qed.

Lemma data_count_elem (data : list Z) (k : Z) (c : nat) :
  (k, c) ∈ data_count data <-> c = occurrences k data /\ k ∈ data.
Proof.
  rewrite data_count_perm, elem_of_map_to_list, count_table_lookup, occurrences_pos.
  case_decide.
  - split; [discriminate | intros [-> ?]; lia].
  - split; [intros [= <-]; split; [done | lia] | by intros [-> _]].
Qed.

#[local] Instance by_label_total : Total by_label.
Proof. intros p q. unfold by_label. lia. Qed.

#[local] Instance by_label_trans : Transitive by_label.
Proof. intros p q r. unfold by_label. lia. Qed.

Lemma data_count_sorted (data : list Z) :
  StronglySorted Z.lt (data_count data).*1.
Proof.
  assert (Hs : StronglySorted by_label (data_count data))
    by apply (StronglySorted_merge_sort by_label).
  assert (Hnd : NoDup (data_count data).*1).
  { rewrite data_count_perm. apply NoDup_fst_map_to_list. }
  induction Hs as [|p l Hs IH Hall]; simpl in *; [constructor|].
  apply NoDup_cons in Hnd as [Hnotin Hnd].
  constructor; [by apply IH|].
  apply Forall_fmap, Forall_forall. intros q Hq. simpl.
  rewrite Forall_forall in Hall. specialize (Hall q Hq). unfold by_label in Hall.
  assert (p.1 <> q.1).
  { intros Heq. apply Hnotin. rewrite Heq. by apply list_elem_of_fmap_2. }
  lia.
Qed.

Lemma data_count_total (data : list Z) :
  sum_list_with snd (data_count data) = length data.
Proof. rewrite data_count_perm. apply count_table_total. Qed.

Lemma distribution_fre_unfold (data : list Z) :
  distribution_fre (Some data)
  = Ok (Some (map (fun kc => (kc.1, fdiv (of_count kc.2) (of_count (length data))))
                  (data_count data))).
Proof.
  unfold distribution_fre. fold (data_count data).
  by rewrite data_count_total.
Qed.

End Frequency.

Section FrequencySpec.
#[local] Open Scope Q_scope.

Lemma inject_count_nonzero (n : nat) :
  n <> O -> Qeq_bool (inject_Z (Z.of_nat n)) 0 = false.
Proof.
  intros Hn. destruct (Qeq_bool _ 0) eqn:E; [|reflexivity].
  apply Qeq_bool_iff in E. unfold Qeq in E. simpl in E. lia.
Qed.

Lemma inject_count_pos (n : nat) : n <> O -> 0 < inject_Z (Z.of_nat n).
Proof. intros Hn. unfold Qlt. simpl. lia. Qed.

Lemma inject_count_add (a b : nat) :
  inject_Z (Z.of_nat (a + b)) == inject_Z (Z.of_nat a) + inject_Z (Z.of_nat b).
Proof. by rewrite Nat2Z.inj_add, inject_Z_plus. Qed.

(** A count over a non-zero total is a finite quotient. *)
Lemma fdiv_counts (c n : nat) :
  n <> O ->
  fdiv (of_count c) (of_count n)
  = Fin (inject_Z (Z.of_nat c) / inject_Z (Z.of_nat n)).
Proof. intros Hn. unfold of_count; simpl. by rewrite inject_count_nonzero. Qed.

Lemma fsum_ratios (l : list (Z * nat)) (n : nat) :
  n <> O ->
  exists q,
    fsum (map (fun kc => fdiv (of_count kc.2) (of_count n)) l) = Fin q
    /\ q == inject_Z (Z.of_nat (sum_list_with snd l)) / inject_Z (Z.of_nat n).
Proof.
  intros Hn. pose proof (inject_count_pos n Hn) as Hpos.
  induction l as [|[k c] l (q & Hq & Hv)].
  - exists 0. split; [reflexivity|]. simpl. field. lra.
  - unfold fsum in *. cbn [map foldr snd].
    rewrite (fdiv_counts c n Hn), Hq. cbn [fadd].
    eexists; split; [reflexivity|]. cbn [sum_list_with snd].
    rewrite Hv, inject_count_add. field. lra.
Qed.

(** C5.  For a non-empty sequence of values, [distribution_fre] returns a
    Series whose index is exactly the distinct observed values in ascending
    order, whose value at each key is [count(key) / total_count], and whose
    values sum to [1]; and on [[1, 1, 2, 3, 3, 3]] the result is
    [{1: 2/6, 2: 1/6, 3: 3/6}]. *)
Theorem distribution_fre_frequencies (data : list Z) :
  data <> [] ->
  (exists s,
      distribution_fre (Some data) = Ok (Some s)
      /\ StronglySorted Z.lt (index s)
      /\ (forall k, k ∈ index s <-> k ∈ data)
      /\ (forall k v, (k, v) ∈ s ->
            v = Fin (inject_Z (Z.of_nat (occurrences k data))
                     / inject_Z (Z.of_nat (length data))))
      /\ feq (fsum (values s)) (Fin 1))
  /\ distribution_fre (Some [1; 1; 2; 3; 3; 3]%Z)
     = Ok (Some [(1%Z, Fin (2 # 6)); (2%Z, Fin (1 # 6)); (3%Z, Fin (3 # 6))]).
Proof.
  intros Hne. split; [|by vm_compute].
  assert (Hn : length data <> O) by (destruct data; [done | simpl; lia]).
  eexists. split; [apply distribution_fre_unfold|].
  assert (Hidx : forall (l : list (Z * nat)),
             index (map (fun kc => (kc.1, fdiv (of_count kc.2) (of_count (length data)))) l)
             = l.*1).
  { intros l. unfold index. induction l as [|? ? IH]; simpl; [done | by f_equal]. }
  split; [|split; [|split]].
  - rewrite Hidx. apply data_count_sorted.
  - intros k. rewrite Hidx. split.
    + intros Hk. apply list_elem_of_fmap in Hk as ([k' c] & -> & Hkc).
      by apply data_count_elem in Hkc as [_ ?].
    + intros Hk. apply list_elem_of_fmap.
      exists (k, occurrences k data). split; [done|]. by apply data_count_elem.
  - intros k v Hkv. apply list_elem_of_fmap in Hkv as ([k' c] & [= -> ->] & Hkc).
    simpl. apply data_count_elem in Hkc as [-> _]. by apply fdiv_counts.
  - destruct (fsum_ratios (data_count data) (length data) Hn) as (q & Hq & Hv).
    assert (Hval : forall (l : list (Z * nat)),
               values (map (fun kc => (kc.1, fdiv (of_count kc.2) (of_count (length data)))) l)
               = map (fun kc => fdiv (of_count kc.2) (of_count (length data))) l).
    { intros l. unfold values. induction l as [|? ? IH]; simpl; [done | by f_equal]. }
    rewrite Hval, Hq. simpl. rewrite Hv, data_count_total. field.
    pose proof (inject_count_pos _ Hn). lra.
Qed.

Lemma distribution_fre_frequencies_witness :
  [4; 4; 7]%Z <> []
  /\ exists s,
       distribution_fre (Some [4; 4; 7]%Z) = Ok (Some s)
       /\ StronglySorted Z.lt (index s)
       /\ (forall k, k ∈ index s <-> k ∈ [4; 4; 7]%Z)
       /\ (forall k v, (k, v) ∈ s ->
             v = Fin (inject_Z (Z.of_nat (occurrences k [4; 4; 7]%Z))
                      / inject_Z (Z.of_nat (length [4; 4; 7]%Z))))
       /\ feq (fsum (values s)) (Fin 1).
Proof.
  split; [discriminate|].
  apply (distribution_fre_frequencies [4; 4; 7]%Z). discriminate.
Defined.

(** C8.  [distribution_fre] returns the same result on two sequences that
    are permutations of each other. *)
Theorem distribution_fre_permutation (l1 l2 : list Z) :
  l1 ≡ₚ l2 -> distribution_fre (Some l1) = distribution_fre (Some l2).
Proof.
  intros H. unfold distribution_fre, value_counts.
  by rewrite (count_table_perm l1 l2 H).
Qed.

Lemma distribution_fre_permutation_witness :
  [3; 1; 1; 2]%Z ≡ₚ [1; 3; 1; 2]%Z
  /\ distribution_fre (Some [3; 1; 1; 2]%Z) = distribution_fre (Some [1; 3; 1; 2]%Z).
Proof.
  split; [apply perm_swap|].
  apply (distribution_fre_permutation [3; 1; 1; 2]%Z [1; 3; 1; 2]%Z). apply perm_swap.
Defined.

(** C9.  On an absent input ([None]) [distribution_fre] returns [None], and
    on an empty input it returns the empty Series: no error is raised and
    the result has no entry. *)
Theorem distribution_fre_empty_or_absent :
  distribution_fre None = Ok None
  /\ distribution_fre (Some []) = Ok (Some []).
Proof. split; [reflexivity | by vm_compute]. Qed.

End FrequencySpec.

(** ** Lists of neighbours *)

Section Adjacent.
Context {A B : Type}.

Lemma zip_with_neighbours_seq (e : nat -> A) (g : A -> A -> B) (a n : nat) :
  zip_with g (map e (seq a (S n))) (tail (map e (seq a (S n))))
  = map (fun i => g (e i) (e (S i))) (seq a n).
Proof.
  revert a. induction n as [|n IH]; intros a; [reflexivity|].
  specialize (IH (S a)).
  change (seq a (S (S n))) with (a :: seq (S a) (S n)).
  cbn [map tail]. cbn [seq map tail] in IH. cbn [seq map zip_with].
  f_equal. exact IH.
Qed.

Lemma removelast_zip_with_rolled (g : A -> A -> B) (l : list A) (x y : A) :
  removelast (zip_with g (x :: l) (l ++ [y])) = zip_with g (x :: l) l.
Proof.
  revert x. induction l as [|z l IH]; intros x; [reflexivity|].
  change (zip_with g (x :: z :: l) ((z :: l) ++ [y]))
    with (g x z :: zip_with g (z :: l) (l ++ [y])).
  change (zip_with g (x :: z :: l) (z :: l)) with (g x z :: zip_with g (z :: l) l).
  rewrite <- (IH z).
  destruct (zip_with g (z :: l) (l ++ [y])) eqn:E; [destruct l; discriminate | reflexivity].
Qed.

Lemma zip_with_map_same {C D : Type} (g : C -> D -> B) (c : A -> C) (d : A -> D)
    (l : list A) :
  zip_with g (map c l) (map d l) = map (fun i => g (c i) (d i)) l.
Proof. induction l; simpl; [done | by f_equal]. Qed.

End Adjacent.

(** ** The histogram in closed form *)

Section HistogramShape.
#[local] Open Scope Q_scope.

Lemma linspace_edges (first_edge last_edge : Q) (n : nat) :
  linspace first_edge last_edge (n + 1) = map (edge first_edge last_edge n) (seq 0 (S n)).
Proof. unfold linspace, edge. by rewrite Nat.add_sub, Nat.add_1_r. Qed.

Lemma diff_edges (e : nat -> Q) (n : nat) :
  diff (map e (seq 0 (S n))) = map (fun i => e (S i) - e i) (seq 0 n).
Proof. unfold diff. apply zip_with_neighbours_seq. Qed.

Lemma bin_centers_edges (e : nat -> Q) (n : nat) :
  bin_centers (map e (seq 0 (S n))) = map (fun i => (e i + e (S i)) / 2) (seq 0 n).
Proof.
  unfold bin_centers, roll_back.
  pose proof (zip_with_neighbours_seq e Qplus 0 n) as Hn.
  change (seq 0 (S n)) with (O :: seq 1 n) in *. cbn [map tail take] in *.
  rewrite take_0, removelast_zip_with_rolled, Hn.
  by rewrite map_map.
Qed.

Lemma histogram_unfold (a : list Q) (bins : Z) (first_edge last_edge : Q) :
  (1 <= bins)%Z -> get_outer_edges a = (first_edge, last_edge) ->
  histogram a bins
  = Ok (map (bin_density a bins first_edge last_edge) (seq 0 (Z.to_nat bins)),
        map (edge first_edge last_edge (Z.to_nat bins)) (seq 0 (S (Z.to_nat bins)))).
Proof.
  intros Hb He. unfold histogram.
  destruct (bins <? 1)%Z eqn:Hlt; [lia|].
  rewrite He, linspace_edges, diff_edges. unfold bincount.
  rewrite zip_with_map_same. do 2 f_equal.
  apply map_ext. intros i. unfold bin_density, bin_population.
  rewrite He. reflexivity.
Qed.

Lemma distribution_pdf_unfold (a : list Q) (bins : Z) (first_edge last_edge : Q) :
  (1 <= bins)%Z -> get_outer_edges a = (first_edge, last_edge) ->
  distribution_pdf (Some a) (Some bins)
  = Ok (Some (map (fun i => (bin_center bins first_edge last_edge i,
                              bin_density a bins first_edge last_edge i))
                  (seq 0 (Z.to_nat bins)))).
Proof.
  intros Hb He. unfold distribution_pdf.
  rewrite (histogram_unfold a bins first_edge last_edge Hb He). cbn [mbind pyres_bind].
  rewrite bin_centers_edges. unfold mk_series.
  rewrite !length_map, Nat.eqb_refl.
  rewrite (zip_with_map_same pair). reflexivity.
Qed.

End HistogramShape.

(** ** Binning a non-empty sample *)

Section Binning.
#[local] Open Scope Q_scope.

Lemma outer_edges_bounds (a : list Q) (first_edge last_edge : Q) :
  a <> [] -> get_outer_edges a = (first_edge, last_edge) ->
  first_edge < last_edge /\ forall x, x ∈ a -> first_edge <= x <= last_edge.
Proof.
  destruct a as [|x r]; [done|]. intros _. unfold get_outer_edges.
  assert (Hlo : forall y, y ∈ x :: r -> foldr Qmin x r <= y) by apply foldr_Qmin_le.
  assert (Hhi : forall y, y ∈ x :: r -> y <= foldr Qmax x r) by apply foldr_Qmax_ge.
  pose proof (Hlo x ltac:(left)). pose proof (Hhi x ltac:(left)).
  destruct (Qeq_bool _ _) eqn:E; intros [= <- <-].
  - apply Qeq_bool_iff in E. split; [lra|].
    intros y Hy. specialize (Hlo y Hy). specialize (Hhi y Hy). lra.
  - apply Qeq_bool_neq in E. split; [lra|].
    intros y Hy. specialize (Hlo y Hy). specialize (Hhi y Hy). lra.
Qed.

Lemma outer_edges_regular (a : list Q) (lo hi : Q) :
  np_min a = Ok lo -> np_max a = Ok hi -> ~ hi == lo ->
  get_outer_edges a = (lo, hi).
Proof.
  destruct a as [|x r]; [discriminate|]. simpl. intros [= <-] [= <-] Hne.
  destruct (Qeq_bool _ _) eqn:E; [|reflexivity].
  apply Qeq_bool_iff in E. exfalso. apply Hne. by symmetry.
Qed.

Lemma Qtrunc_nonneg (q : Q) : 0 <= q -> Qtrunc q = Qfloor q.
Proof.
  destruct q as [n d]. unfold Qle, Qtrunc, Qfloor. simpl. intros Hn.
  apply Z.quot_div_nonneg; lia.
Qed.

Lemma bin_index_range (first_edge last_edge : Q) (bins : Z) (x : Q) :
  (1 <= bins)%Z -> first_edge < last_edge -> first_edge <= x <= last_edge ->
  (0 <= bin_index first_edge last_edge bins x < bins)%Z.
Proof.
  intros Hb Hlt [Hx1 Hx2]. unfold bin_index.
  set (f := (x - first_edge) / (last_edge - first_edge) * inject_Z bins).
  assert (Hbq : 1 <= inject_Z bins) by (unfold Qle; simpl; lia).
  assert (Hr : 0 <= (x - first_edge) / (last_edge - first_edge) <= 1).
  { split.
    - apply Qle_shift_div_l; lra.
    - apply Qle_shift_div_r; lra. }
  assert (Hf : 0 <= f <= inject_Z bins) by (unfold f; nra).
  rewrite (Qtrunc_nonneg f) by apply Hf.
  assert (H0 : (0 <= Qfloor f)%Z).
  { change 0%Z with (Qfloor 0). apply Qfloor_resp_le, Hf. }
  assert (H1 : (Qfloor f <= bins)%Z).
  { rewrite <- (Qfloor_Z bins). apply Qfloor_resp_le, Hf. }
  destruct (Qfloor f =? bins)%Z eqn:E; lia.
Qed.

Lemma sum_list_map_add {A} (f g : A -> nat) (l : list A) :
  sum_list (map (fun i => (f i + g i)%nat) l)
  = (sum_list (map f l) + sum_list (map g l))%nat.
Proof. induction l as [|x l IH]; simpl; [done | rewrite IH; lia]. Qed.

Lemma sum_list_indicator (j : Z) (a n : nat) :
  sum_list (map (fun i => if decide (j = Z.of_nat i) then 1%nat else O) (seq a n))
  = if decide (Z.of_nat a <= j < Z.of_nat (a + n))%Z then 1%nat else O.
Proof.
  revert a. induction n as [|n IH]; intros a; simpl.
  - case_decide; [lia | done].
  - rewrite IH. repeat case_decide; lia.
Qed.

(** Every index below [n] is counted once by [bincount]. *)
Lemma bincount_total (indices : list Z) (n : nat) :
  Forall (fun j => (0 <= j < Z.of_nat n)%Z) indices ->
  sum_list (bincount indices n) = length indices.
Proof.
  unfold bincount. induction 1 as [|j idx Hj _ IH]; simpl.
  - induction (seq 0 n); simpl; [done | lia].
  - rewrite <- IH.
    rewrite (map_ext _ (fun i => ((if decide (j = Z.of_nat i) then 1 else 0)
                                  + length (filter (fun j' => j' = Z.of_nat i) idx))%nat)).
    + rewrite sum_list_map_add, sum_list_indicator, decide_True by (simpl; lia). lia.
    + intros i. rewrite filter_cons. by case_decide.
Qed.

Lemma filter_all {A} (P : A -> Prop) `{!forall x, Decision (P x)} (l : list A) :
  (forall x, x ∈ l -> P x) -> filter P l = l.
Proof.
  induction l as [|x l IH]; intros Hall; [done|].
  rewrite filter_cons_True by (apply Hall; left). f_equal. apply IH.
  intros y Hy. apply Hall. by right.
Qed.

Lemma bin_population_total (a : list Q) (bins : Z) :
  (1 <= bins)%Z -> a <> [] ->
  sum_list (map (bin_population a bins) (seq 0 (Z.to_nat bins))) = length a.
Proof.
  intros Hb Hne.
  destruct (get_outer_edges a) as [first_edge last_edge] eqn:He.
  destruct (outer_edges_bounds a first_edge last_edge Hne He) as [Hlt Hin].
  assert (Hkeep : filter (fun x => Qle_bool first_edge x && Qle_bool x last_edge = true) a = a).
  { apply filter_all. intros x Hx. destruct (Hin x Hx) as [H1 H2].
    apply andb_true_iff. by rewrite !Qle_bool_iff. }
  rewrite (map_ext _ (fun i => length (filter (fun j => j = Z.of_nat i)
                                         (map (bin_index first_edge last_edge bins) a)))).
  - rewrite <- (length_map (bin_index first_edge last_edge bins) a).
    apply bincount_total. apply Forall_fmap, Forall_forall. intros x Hx. simpl.
    rewrite Z2Nat.id by lia. apply bin_index_range; auto.
  - intros i. unfold bin_population. by rewrite He, Hkeep.
Qed.

End Binning.

(** ** The density of a non-empty sample *)

Section Density.
#[local] Open Scope Q_scope.

Variables (a : list Q) (bins : Z) (first_edge last_edge : Q).
Hypothesis Hbins : (1 <= bins)%Z.
Hypothesis Hdata : a <> [].
Hypothesis Hedges : get_outer_edges a = (first_edge, last_edge).

Let n : nat := Z.to_nat bins.
Let width : Q := (last_edge - first_edge) / inject_Z bins.

Lemma inject_bins : inject_Z (Z.of_nat (Z.to_nat bins)) = inject_Z bins.
Proof using Hbins. by rewrite Z2Nat.id by lia. Qed.

Lemma bins_pos : 0 < inject_Z bins.
Proof using Hbins. unfold Qlt; simpl; lia. Qed.

Lemma width_pos : 0 < width.
Proof using Hbins Hdata Hedges.
  destruct (outer_edges_bounds a _ _ Hdata Hedges) as [Hlt _].
  unfold width. apply Qlt_shift_div_l; [apply bins_pos | lra].
Qed.

Lemma edge_formula (i : nat) :
  edge first_edge last_edge n i == first_edge + inject_Z (Z.of_nat i) * width.
Proof using Hbins. unfold edge, width, n. rewrite inject_bins. ring. Qed.

Lemma edge_step (i : nat) :
  edge first_edge last_edge n (S i) - edge first_edge last_edge n i == width.
Proof using Hbins.
  rewrite !edge_formula, Nat2Z.inj_succ. unfold Z.succ.
  rewrite inject_Z_plus. ring.
Qed.

Lemma edge_first : edge first_edge last_edge n O == first_edge.
Proof using Hbins. rewrite edge_formula. simpl. ring. Qed.

Lemma edge_last : edge first_edge last_edge n n == last_edge.
Proof using Hbins.
  rewrite edge_formula. unfold width, n. rewrite inject_bins.
  field. pose proof bins_pos. lra.
Qed.

Lemma bin_center_formula (i : nat) :
  bin_center bins first_edge last_edge i
  == first_edge + (inject_Z (Z.of_nat i) + (1 # 2)) * width.
Proof using Hbins.
  unfold bin_center. fold n. rewrite !edge_formula, Nat2Z.inj_succ. unfold Z.succ.
  rewrite inject_Z_plus. field.
Qed.

Lemma bin_center_lt (i j : nat) :
  (i < j)%nat ->
  bin_center bins first_edge last_edge i < bin_center bins first_edge last_edge j.
Proof using Hbins Hdata Hedges.
  intros Hij. rewrite !bin_center_formula.
  assert (inject_Z (Z.of_nat i) < inject_Z (Z.of_nat j)) by (rewrite <- Zlt_Qlt; lia).
  pose proof width_pos. nra.
Qed.

Lemma bin_density_finite (i : nat) :
  bin_density a bins first_edge last_edge i = Fin (pdf_rat a bins first_edge last_edge i).
Proof using Hbins Hdata Hedges.
  unfold bin_density, pdf_rat. fold n.
  unfold n at 3. rewrite (bin_population_total a bins Hbins Hdata).
  assert (Hlen : length a <> O) by (destruct a; [done | simpl; lia]).
  unfold of_count. cbn [fdiv].
  assert (Hd : Qeq_bool (edge first_edge last_edge n (S i) - edge first_edge last_edge n i) 0
               = false).
  { destruct (Qeq_bool _ 0) eqn:E; [|done]. apply Qeq_bool_iff in E.
    rewrite edge_step in E. pose proof width_pos. lra. }
  rewrite Hd. cbn [fdiv]. by rewrite (inject_count_nonzero _ Hlen).
Qed.

Lemma pdf_rat_value (i : nat) :
  pdf_rat a bins first_edge last_edge i
  == inject_Z (Z.of_nat (bin_population a bins i)) / width
     / inject_Z (Z.of_nat (length a)).
Proof using Hbins. unfold pdf_rat. fold n. by rewrite edge_step. Qed.

Lemma pdf_rat_nonneg (i : nat) : 0 <= pdf_rat a bins first_edge last_edge i.
Proof using Hbins Hdata Hedges.
  rewrite pdf_rat_value.
  assert (Hlen : length a <> O) by (destruct a; [done | simpl; lia]).
  pose proof (inject_count_pos _ Hlen). pose proof width_pos.
  assert (0 <= inject_Z (Z.of_nat (bin_population a bins i)))
    by (unfold Qle; simpl; lia).
  apply Qle_shift_div_l; [lra|]. apply Qle_shift_div_l; lra.
Qed.

Lemma distribution_pdf_finite :
  distribution_pdf (Some a) (Some bins)
  = Ok (Some (map (fun i => (bin_center bins first_edge last_edge i,
                              Fin (pdf_rat a bins first_edge last_edge i)))
                  (seq 0 n))).
Proof using Hbins Hdata Hedges.
  rewrite (distribution_pdf_unfold a bins first_edge last_edge Hbins Hedges).
  do 2 f_equal. apply map_ext. intros i. by rewrite bin_density_finite.
Qed.

Lemma pdf_rat_mass (l : list nat) :
  qsum (map (fun i => pdf_rat a bins first_edge last_edge i * width) l)
  == inject_Z (Z.of_nat (sum_list (map (bin_population a bins) l)))
     / inject_Z (Z.of_nat (length a)).
Proof using Hbins Hdata Hedges.
  assert (Hlen : length a <> O) by (destruct a; [done | simpl; lia]).
  pose proof (inject_count_pos _ Hlen). pose proof width_pos.
  induction l as [|i l IH]; simpl.
  - field. lra.
  - unfold qsum in IH. rewrite IH, pdf_rat_value, inject_count_add. field. lra.
Qed.

Lemma pdf_rat_total_mass :
  qsum (map (fun i => pdf_rat a bins first_edge last_edge i * width) (seq 0 n)) == 1.
Proof using Hbins Hdata Hedges.
  rewrite pdf_rat_mass. unfold n. rewrite (bin_population_total a bins Hbins Hdata).
  assert (Hlen : length a <> O) by (destruct a; [done | simpl; lia]).
  pose proof (inject_count_pos _ Hlen). field. lra.
Qed.

End Density.

(** ** [distribution_pdf] *)

Section Pdf.
#[local] Open Scope Q_scope.

Lemma index_map_pair {A K} (c : A -> K) (d : A -> npfloat) (l : list A) :
  index (map (fun i => (c i, d i)) l) = map c l.
Proof. unfold index. induction l; simpl; [done | by f_equal]. Qed.

Lemma values_map_pair {A K} (c : A -> K) (d : A -> npfloat) (l : list A) :
  values (map (fun i => (c i, d i)) l) = map d l.
Proof. unfold values. induction l; simpl; [done | by f_equal]. Qed.

Lemma StronglySorted_map_seq {A} (R : relation A) (c : nat -> A) (a n : nat) :
  (forall i j, (i < j)%nat -> R (c i) (c j)) ->
  StronglySorted R (map c (seq a n)).
Proof.
  intros Hmono. revert a. induction n as [|n IH]; intros a; simpl; constructor.
  - apply IH.
  - apply Forall_forall. intros x Hx.
    apply list_elem_of_fmap in Hx as (j & -> & Hj).
    apply elem_of_seq in Hj. apply Hmono. lia.
Qed.

Lemma fsum_Fin (l : list Q) : fsum (map Fin l) = Fin (qsum l).
Proof. unfold fsum, qsum. induction l as [|x l IH]; simpl; [done | by rewrite IH]. Qed.

Lemma np_min_nonempty (a : list Q) (lo : Q) : np_min a = Ok lo -> a <> [].
Proof. by destruct a. Qed.





End Pdf.

(** ** Running totals of a finite density *)

Section Cumulative.
#[local] Open Scope Q_scope.

Lemma qsum_snoc (l : list Q) (x : Q) : qsum (l ++ [x]) == qsum l + x.
Proof. unfold qsum. induction l as [|y l IH]; simpl; [ring | rewrite IH; ring]. Qed.

Lemma partial_sum_S (q : nat -> Q) (k : nat) :
  partial_sum q (S k) == partial_sum q k + q k.
Proof. unfold partial_sum. rewrite seq_S, map_app. cbn [map Nat.add]. apply qsum_snoc. Qed.

Lemma partial_sum_mono (q : nat -> Q) (i j : nat) :
  (forall k, 0 <= q k) -> (i <= j)%nat -> partial_sum q i <= partial_sum q j.
Proof.
  intros Hq. induction 1 as [|j _ IH]; [apply Qle_refl|].
  rewrite partial_sum_S. specialize (Hq j). lra.
Qed.

Lemma partial_sum_scale (q : nat -> Q) (w : Q) (k : nat) :
  partial_sum (fun i => q i * w) k == partial_sum q k * w.
Proof.
  induction k as [|k IH]; [unfold partial_sum, qsum; simpl; ring|].
  rewrite !partial_sum_S, IH. ring.
Qed.

Lemma filter_notnan_Fin (l : list Q) :
  filter (fun v => isnan v = false) (map Fin l) = map Fin l.
Proof. apply filter_all. intros v Hv. by apply list_elem_of_fmap in Hv as (x & -> & _). Qed.

Lemma foldr_fmax_Fin (x : Q) (l : list Q) :
  exists m, foldr fmax (Fin x) (map Fin l) = Fin m
            /\ m ∈ x :: l /\ forall y, y ∈ x :: l -> y <= m.
Proof.
  induction l as [|z l (m & Hm & Hin & Hub)]; simpl.
  - exists x. split; [done|]. split; [left|].
    intros y Hy. apply list_elem_of_singleton in Hy. subst. apply Qle_refl.
  - rewrite Hm. unfold fmax, fleb. destruct (Qle_bool z m) eqn:E.
    + apply Qle_bool_iff in E. exists m. split; [done|]. split.
      * apply elem_of_cons in Hin as [->|Hin]; [left | right; by right].
      * intros y Hy. apply elem_of_cons in Hy as [->|Hy]; [by apply Hub; left|].
        apply elem_of_cons in Hy as [->|Hy]; [done|]. apply Hub. by right.
    + assert (m < z).
      { apply Qnot_le_lt. intros Hle. apply Qle_bool_iff in Hle. congruence. }
      exists z. split; [done|]. split; [right; left|].
      intros y Hy. apply elem_of_cons in Hy as [->|Hy]; [|apply elem_of_cons in Hy as [->|Hy]].
      * specialize (Hub x ltac:(left)). lra.
      * apply Qle_refl.
      * specialize (Hub y ltac:(by right)). lra.
Qed.

Lemma fmax_list_Fin (l : list Q) :
  l <> [] ->
  exists m, fmax_list (map Fin l) = Fin m /\ m ∈ l /\ forall y, y ∈ l -> y <= m.
Proof. destruct l as [|x l]; [done|]. intros _. simpl. apply foldr_fmax_Fin. Qed.

Lemma series_max_Fin {K} (s : Series K) (l : list Q) :
  values s = map Fin l -> l <> [] ->
  exists m, series_max s = Fin m /\ m ∈ l /\ forall y, y ∈ l -> y <= m.
Proof.
  intros Hv Hl. unfold series_max. rewrite Hv, filter_notnan_Fin.
  by apply fmax_list_Fin.
Qed.

(** The largest of the running totals of non-negative terms is the last. *)
Lemma fmax_list_partial_sums (q : nat -> Q) (n : nat) (m : Q) :
  (forall k, 0 <= q k) -> n <> O ->
  m ∈ map (fun i => partial_sum q (S i)) (seq 0 n) ->
  (forall y, y ∈ map (fun i => partial_sum q (S i)) (seq 0 n) -> y <= m) ->
  m == partial_sum q n.
Proof.
  intros Hq Hn Hin Hub. apply Qle_antisym.
  - apply list_elem_of_fmap in Hin as (j & -> & Hj). apply elem_of_seq in Hj.
    apply partial_sum_mono; [done | lia].
  - apply Hub. apply list_elem_of_fmap. exists (pred n).
    split; [f_equal; lia | apply elem_of_seq; lia].
Qed.

Variables (c q : nat -> Q) (n : nat).
Hypothesis Hc : forall i j, (i < j)%nat -> c i < c j.

Let pdf : Series Q := map (fun i => (c i, Fin (q i))) (seq 0 n).

Lemma slice_bound_right_stop (a m : nat) (v : Q) :
  v < c a -> slice_bound_right (map c (seq a m)) v = O.
Proof.
  intros Hv. destruct m as [|m]; [done|]. simpl.
  destruct (Qle_bool (c a) v) eqn:E; [|done].
  apply Qle_bool_iff in E. lra.
Qed.

Lemma slice_bound_right_seq (a m i : nat) :
  (a <= i < a + m)%nat ->
  slice_bound_right (map c (seq a m)) (c i) = (S i - a)%nat.
Proof using Hc.
  revert a. induction m as [|m IH]; intros a Hi; [lia|]. simpl.
  assert (Hle : Qle_bool (c a) (c i) = true).
  { apply Qle_bool_iff. destruct (decide (a = i)) as [->|]; [apply Qle_refl|].
    apply Qlt_le_weak, Hc. lia. }
  rewrite Hle. destruct (decide (a = i)) as [->|Hne].
  - rewrite slice_bound_right_stop by (apply Hc; lia). lia.
  - rewrite IH by lia. lia.
Qed.

Lemma slice_to_prefix (i : nat) :
  (i < n)%nat -> slice_to pdf (c i) = map (fun i => (c i, Fin (q i))) (seq 0 (S i)).
Proof using Hc.
  intros Hi. unfold slice_to, pdf. rewrite index_map_pair.
  rewrite slice_bound_right_seq by lia. rewrite Nat.sub_0_r.
  rewrite <- fmap_take, take_seq. by rewrite Nat.min_l by lia.
Qed.

Lemma running_totals :
  map (fun ind => series_sum (slice_to pdf ind)) (index pdf)
  = map (fun i => Fin (partial_sum q (S i))) (seq 0 n).
Proof using Hc.
  unfold pdf at 2. rewrite index_map_pair, map_map.
  apply map_ext_in. intros i Hi. apply in_seq in Hi.
  rewrite slice_to_prefix by lia. unfold series_sum.
  rewrite values_map_pair, <- (map_map q Fin), filter_notnan_Fin.
  apply fsum_Fin.
Qed.

Hypothesis Hn : n <> O.
Hypothesis Hq : forall i, 0 <= q i.
Hypothesis Hmass : 0 < partial_sum q n.

(** The cumulative Series: running totals over the grand total. *)
Lemma cdf_of_pdf_finite :
  exists m,
    m == partial_sum q n
    /\ cdf_of_pdf pdf
       = Ok (map (fun i => (c i, Fin (partial_sum q (S i) / m))) (seq 0 n)).
Proof using Hc Hn Hq Hmass.
  unfold cdf_of_pdf. rewrite running_totals.
  unfold mk_series, pdf. rewrite index_map_pair, !length_map, Nat.eqb_refl.
  cbn [mbind pyres_bind]. rewrite (zip_with_map_same pair).
  set (cdf := map _ (seq 0 n)).
  destruct (series_max_Fin cdf (map (fun i => partial_sum q (S i)) (seq 0 n)))
    as (m & Hm & Hin & Hub).
  { unfold cdf. by rewrite values_map_pair, map_map. }
  { destruct n; [done | discriminate]. }
  assert (Hmn : m == partial_sum q n) by by apply fmax_list_partial_sums.
  exists m. split; [exact Hmn|]. rewrite Hm. f_equal.
  unfold cdf, series_div. rewrite map_map. apply map_ext. intros i. simpl.
  destruct (Qeq_bool m 0) eqn:E; [|done].
  apply Qeq_bool_iff in E. lra.
Qed.

End Cumulative.

(** ** [distribution_cdf] *)

Section Cdf.
#[local] Open Scope Q_scope.

Lemma distribution_cdf_unfold (data : option (list Q)) (bins : option Z) (pdf : Series Q) :
  distribution_pdf data bins = Ok (Some pdf) ->
  distribution_cdf data bins = cdf_of_pdf pdf.
Proof. intros H. unfold distribution_cdf. by rewrite H. Qed.

Lemma distribution_cdf_default (data : list Q) (bins : option Z) :
  distribution_cdf (Some data) bins = distribution_cdf (Some data) (Some (default 200%Z bins)).
Proof. by destruct bins. Qed.

Lemma distribution_cdf_bad_bins (data : list Q) (bins : Z) :
  (bins < 1)%Z -> distribution_cdf (Some data) (Some bins) = Raise ValueError.
Proof.
  intros Hb. unfold distribution_cdf, distribution_pdf, histogram.
  destruct (bins <? 1)%Z eqn:E; [reflexivity | lia].
Qed.

Lemma pdf_rat_partial_sum_pos (a : list Q) (bins : Z) (first_edge last_edge : Q) :
  (1 <= bins)%Z -> a <> [] -> get_outer_edges a = (first_edge, last_edge) ->
  0 < partial_sum (pdf_rat a bins first_edge last_edge) (Z.to_nat bins).
Proof.
  intros Hb Hne He.
  pose proof (pdf_rat_total_mass a bins first_edge last_edge Hb Hne He) as Hm.
  change (partial_sum (fun i => pdf_rat a bins first_edge last_edge i
                                * ((last_edge - first_edge) / inject_Z bins))
                      (Z.to_nat bins) == 1) in Hm.
  rewrite partial_sum_scale in Hm.
  pose proof (width_pos a bins first_edge last_edge Hb Hne He).
  nra.
Qed.

(** The cumulative Series of a non-empty sample: over the bin centres, the
    running totals of the densities divided by their grand total. *)
Lemma distribution_cdf_finite (a : list Q) (bins : Z) (first_edge last_edge : Q) :
  (1 <= bins)%Z -> a <> [] -> get_outer_edges a = (first_edge, last_edge) ->
  exists m,
    m == partial_sum (pdf_rat a bins first_edge last_edge) (Z.to_nat bins)
    /\ 0 < m
    /\ distribution_cdf (Some a) (Some bins)
       = Ok (map (fun i => (bin_center bins first_edge last_edge i,
                            Fin (partial_sum (pdf_rat a bins first_edge last_edge) (S i) / m)))
                 (seq 0 (Z.to_nat bins))).
Proof.
  intros Hb Hne He.
  pose proof (pdf_rat_partial_sum_pos a bins first_edge last_edge Hb Hne He) as Hpos.
  destruct (cdf_of_pdf_finite (bin_center bins first_edge last_edge)
              (pdf_rat a bins first_edge last_edge) (Z.to_nat bins))
    as (m & Hm & Hcdf).
  - intros i j. by apply (bin_center_lt a).
  - lia.
  - intros i. by apply pdf_rat_nonneg.
  - exact Hpos.
  - exists m. split; [exact Hm|]. split; [lra|].
    rewrite <- Hcdf. apply distribution_cdf_unfold.
    by apply distribution_pdf_finite.
Qed.

(** Shape of the result on a non-empty sample, whatever its range. *)
Lemma distribution_cdf_shape (a : list Q) (bins : Z) :
  (1 <= bins)%Z -> a <> [] ->
  exists cdf,
    distribution_cdf (Some a) (Some bins) = Ok cdf
    /\ StronglySorted Qlt (index cdf)
    /\ StronglySorted (fun x y => fleb x y = true) (values cdf)
    /\ exists v, last (values cdf) = Some v /\ feq v (Fin 1).
Proof.
  intros Hb Hne. destruct (get_outer_edges a) as [first_edge last_edge] eqn:He.
  destruct (distribution_cdf_finite a bins first_edge last_edge Hb Hne He)
    as (m & Hm & Hpos & Hcdf).
  eexists. split; [exact Hcdf|].
  rewrite index_map_pair, values_map_pair.
  split; [|split].
  - apply StronglySorted_map_seq. intros i j. by apply (bin_center_lt a).
  - apply StronglySorted_map_seq. intros i j Hij. cbn [fleb].
    apply Qle_bool_iff. unfold Qdiv. apply Qmult_le_compat_r.
    + apply partial_sum_mono; [|lia]. intros k. by apply pdf_rat_nonneg.
    + apply Qinv_le_0_compat. lra.
  - destruct (Z.to_nat bins) as [|k] eqn:Ek; [lia|].
    rewrite seq_S, map_app. cbn [map Nat.add]. rewrite last_snoc.
    eexists. split; [reflexivity|]. cbn [feq]. rewrite <- Hm. field. lra.
Qed.



End Cdf.

(** ** [distribution_cdf] against its reference definition *)

Section Refinement.
#[local] Open Scope Q_scope.

Lemma filter_map_seq_upto {A} (f : nat -> A) (P : A -> Prop)
    `{!forall x, Decision (P x)} (i a m : nat) :
  (forall j, P (f j) <-> (j <= i)%nat) ->
  filter P (map f (seq a m)) = map f (seq a (Nat.min (a + m) (S i) - a)).
Proof.
  intros HP. revert a. induction m as [|m IH]; intros a.
  - by replace (Nat.min (a + 0) (S i) - a)%nat with O by lia.
  - cbn [seq map]. destruct (decide (a <= i)%nat) as [Hle|Hgt].
    + rewrite filter_cons_True by by apply HP. rewrite IH.
      replace (Nat.min (a + S m) (S i) - a)%nat
        with (S (Nat.min (S a + m) (S i) - S a)) by lia.
      reflexivity.
    + rewrite filter_cons_False by (rewrite HP; lia). rewrite IH.
      replace (Nat.min (S a + m) (S i) - S a)%nat with O by lia.
      by replace (Nat.min (a + S m) (S i) - a)%nat with O by lia.
Qed.

Variables (c q : nat -> Q) (n : nat) (w : Q).
Hypothesis Hc : forall i j, (i < j)%nat -> c i < c j.

Lemma key_le_iff (i j : nat) : Qle_bool (c j) (c i) = true <-> (j <= i)%nat.
Proof using Hc.
  rewrite Qle_bool_iff. split.
  - intros Hle. destruct (decide (j <= i)%nat); [done|].
    pose proof (Hc i j ltac:(lia)). lra.
  - intros Hji. destruct (decide (j = i)) as [->|]; [apply Qle_refl|].
    apply Qlt_le_weak, Hc. lia.
Qed.

(** The mass below a key: the filter keeps the bins up to that key. *)
Lemma mass_upto_key (i : nat) :
  (i < n)%nat ->
  fsum (map (fun kd : Q * npfloat => fmul kd.2 (Fin w))
            (filter (fun kd : Q * npfloat => Qle_bool kd.1 (c i) = true)
                    (map (fun j => (c j, Fin (q j))) (seq 0 n))))
  = Fin (partial_sum (fun j => q j * w) (S i)).
Proof using Hc.
  intros Hi.
  rewrite (filter_map_seq_upto (fun j => (c j, Fin (q j))) _ i 0 n)
    by (intros j; apply key_le_iff).
  replace (Nat.min (0 + n) (S i) - 0)%nat with (S i) by lia.
  rewrite map_map. cbn [snd fmul].
  rewrite <- (map_map (fun j => q j * w) Fin). apply fsum_Fin.
Qed.

End Refinement.

Section RefinementSpec.
#[local] Open Scope Q_scope.



End RefinementSpec.

(** ** The bins are half-open intervals, the last one closed *)

Section Bins.
#[local] Open Scope Q_scope.

(** The bin that [histogram] gives a value of the range holds that value:
    it lies on or after the left edge of its bin and before its right edge,
    or on the last edge of the last bin.  This is the property that the index
    repair of [np.histogram] restores after rounding; here it holds at once. *)
Lemma bin_index_in_bin (first_edge last_edge : Q) (bins : Z) (x : Q) :
  (1 <= bins)%Z -> first_edge < last_edge -> first_edge <= x <= last_edge ->
  exists i : nat,
    bin_index first_edge last_edge bins x = Z.of_nat i
    /\ edge first_edge last_edge (Z.to_nat bins) i <= x
    /\ (x < edge first_edge last_edge (Z.to_nat bins) (S i)
        \/ (S i = Z.to_nat bins /\ x == last_edge)).
Proof.
  intros Hb Hlt [Hx1 Hx2].
  pose proof (bin_index_range first_edge last_edge bins x Hb Hlt (conj Hx1 Hx2)) as Hr.
  exists (Z.to_nat (bin_index first_edge last_edge bins x)).
  split; [by rewrite Z2Nat.id by lia|].
  rewrite !(edge_formula bins first_edge last_edge Hb), Nat2Z.inj_succ, Z2Nat.id by lia.
  unfold Z.succ. rewrite inject_Z_plus.
  revert Hr. unfold bin_index.
  set (w := (last_edge - first_edge) / inject_Z bins).
  set (f := (x - first_edge) / (last_edge - first_edge) * inject_Z bins).
  assert (Hbq : 1 <= inject_Z bins) by (unfold Qle; simpl; lia).
  assert (Hw : 0 < w) by (unfold w; apply Qlt_shift_div_l; lra).
  assert (Hfw : f * w == x - first_edge) by (unfold f, w; field; split; lra).
  assert (Hf : 0 <= f).
  { unfold f. apply Qmult_le_0_compat; [|lra]. apply Qle_shift_div_l; lra. }
  rewrite (Qtrunc_nonneg f Hf).
  pose proof (Qfloor_le f) as Hlo. pose proof (Qlt_floor f) as Hhi.
  rewrite inject_Z_plus in Hhi.
  assert (Hbw : inject_Z bins * w == last_edge - first_edge) by (unfold w; field; lra).
  destruct (Qfloor f =? bins)%Z eqn:E; intros Hr.
  - apply Z.eqb_eq in E. rewrite E in *.
    unfold Zminus. rewrite inject_Z_plus.
    change (inject_Z (- (1))) with (- (1)). change (inject_Z 1) with 1.
    assert (Hge : 0 <= (f - inject_Z bins) * w) by (apply Qmult_le_0_compat; lra).
    split; [lra|]. right. split; [lia | lra].
  - change (inject_Z 1) with 1 in *.
    assert (Hge : 0 <= (f - inject_Z (Qfloor f)) * w) by (apply Qmult_le_0_compat; lra).
    assert (Hgt : 0 < (inject_Z (Qfloor f) + 1 - f) * w) by (apply Qmult_lt_0_compat; lra).
    split; [lra|]. left. lra.
Qed.

Example distribution_pdf_scenario :
  distribution_pdf (Some [1; 2; 3; 4]) (Some 2%Z)
  = Ok (Some [(14 # 8, Fin (8 # 24)); (26 # 8, Fin (8 # 24))]).
Proof. by vm_compute. Qed.

End Bins.

(** * Further properties *)

(** ** [normlize]: bounds, order, rescaling *)

Section NormlizeMore.
#[local] Open Scope Q_scope.

Lemma Qmin_cases (a b : Q) : Qmin a b = a \/ Qmin a b = b.
Proof. unfold Qmin, GenericMinMax.gmin. destruct (Qcompare a b); auto. Qed.

Lemma Qmax_cases (a b : Q) : Qmax a b = a \/ Qmax a b = b.
Proof. unfold Qmax, GenericMinMax.gmax. destruct (Qcompare a b); auto. Qed.

(** The extrema are elements of the array. *)
Lemma np_min_elem (a : list Q) (m : Q) : np_min a = Ok m -> m ∈ a.
Proof.
  destruct a as [|x r]; [discriminate|]. simpl. intros [= <-].
  induction r as [|z r IH]; simpl; [left|].
  destruct (Qmin_cases z (foldr Qmin x r)) as [->| ->]; [right; left|].
  apply elem_of_cons in IH as [->|IH]; [left | right; by right].
Qed.

Lemma np_max_elem (a : list Q) (m : Q) : np_max a = Ok m -> m ∈ a.
Proof.
  destruct a as [|x r]; [discriminate|]. simpl. intros [= <-].
  induction r as [|z r IH]; simpl; [left|].
  destruct (Qmax_cases z (foldr Qmax x r)) as [->| ->]; [right; left|].
  apply elem_of_cons in IH as [->|IH]; [left | right; by right].
Qed.

Lemma np_min_ok (a : list Q) : a <> [] -> exists m, np_min a = Ok m.
Proof. destruct a; [done|]. by eexists. Qed.

Lemma np_max_ok (a : list Q) : a <> [] -> exists m, np_max a = Ok m.
Proof. destruct a; [done|]. by eexists. Qed.

(** The rational that [normlize] computes on a non-constant array *)
Lemma normlize_elem_value (lower upper xmin xmax x : Q) :
  ~ xmax == xmin ->
  normlize_elem lower upper xmin xmax x
  = Fin ((upper + - lower) * (x + - xmin) / (xmax + - xmin) + lower).
Proof.
  intros Hne. unfold normlize_elem; simpl.
  destruct (Qeq_bool (xmax + - xmin) 0) eqn:E; [|reflexivity].
  apply Qeq_bool_iff in E. exfalso. apply Hne. lra.
Qed.

Lemma normlize_value_bounds (lower upper xmin xmax x : Q) :
  xmin < xmax -> xmin <= x <= xmax -> lower <= upper ->
  lower <= (upper + - lower) * (x + - xmin) / (xmax + - xmin) + lower <= upper.
Proof.
  intros Hlt [Hx1 Hx2] Hlu.
  set (t := (x + - xmin) / (xmax + - xmin)).
  assert (Ht : 0 <= t <= 1).
  { unfold t. split; [apply Qle_shift_div_l | apply Qle_shift_div_r]; lra. }
  assert (Hv : (upper + - lower) * (x + - xmin) / (xmax + - xmin) == (upper + - lower) * t)
    by (unfold t; field; lra).
  rewrite Hv. nra.
Qed.





(** [normlize] raises exactly on the empty array, and then a [ValueError]
    (from [np.max]); on any other array it returns as many elements as it
    was given. *)
Theorem normlize_raises_iff_empty (data : list Q) (lower upper : Q) :
  (data = [] -> normlize data lower upper = Raise ValueError)
  /\ (data <> [] ->
      exists out, normlize data lower upper = Ok out /\ length out = length data).
Proof.
  split.
  - by intros ->.
  - intros Hne. destruct (np_min_ok data Hne) as [xmin Hmin].
    destruct (np_max_ok data Hne) as [xmax Hmax].
    eexists. split; [by apply (normlize_unfold data lower upper xmin xmax)|].
    apply length_map.
Qed.

End NormlizeMore.

Section NormlizeRescale.
#[local] Open Scope Q_scope.

(** The extrema of an increasing image are the images of the extrema. *)
Lemma np_min_affine (data : list Q) (a b xmin : Q) :
  0 < a -> np_min data = Ok xmin ->
  exists m, np_min (map (fun x => a * x + b) data) = Ok m /\ m == a * xmin + b.
Proof.
  intros Ha Hmin.
  destruct (np_min_ok (map (fun x => a * x + b) data)) as [m Hm].
  { pose proof (np_min_nonempty _ _ Hmin). by destruct data. }
  exists m. split; [exact Hm|]. apply Qle_antisym.
  - apply (np_min_le _ _ _ Hm). apply (list_elem_of_fmap_2 (fun x => a * x + b)).
    by apply np_min_elem.
  - pose proof (np_min_elem _ _ Hm) as Hin.
    apply list_elem_of_fmap in Hin as (x0 & -> & Hx0).
    pose proof (np_min_le _ _ _ Hmin Hx0). nra.
Qed.

Lemma np_max_affine (data : list Q) (a b xmax : Q) :
  0 < a -> np_max data = Ok xmax ->
  exists m, np_max (map (fun x => a * x + b) data) = Ok m /\ m == a * xmax + b.
Proof.
  intros Ha Hmax.
  destruct (np_max_ok (map (fun x => a * x + b) data)) as [m Hm].
  { destruct data; [discriminate | done]. }
  exists m. split; [exact Hm|]. apply Qle_antisym.
  - pose proof (np_max_elem _ _ Hm) as Hin.
    apply list_elem_of_fmap in Hin as (x0 & -> & Hx0).
    pose proof (np_max_ge _ _ _ Hmax Hx0). nra.
  - apply (np_max_ge _ _ _ Hm). apply (list_elem_of_fmap_2 (fun x => a * x + b)).
    by apply np_max_elem.
Qed.



End NormlizeRescale.

(** ** [distribution_fre]: frequencies as probabilities, repeated data *)

Section FrequencyMore.
#[local] Open Scope Q_scope.

Lemma StronglySorted_lt_NoDup (l : list Z) : StronglySorted Z.lt l -> NoDup l.
Proof.
  induction 1 as [|x l _ IH Hall]; constructor; [|done].
  intros Hin. rewrite Forall_forall in Hall. specialize (Hall x Hin). lia.
Qed.

(** An ascending list is determined by its elements. *)
Lemma StronglySorted_lt_ext (l1 l2 : list Z) :
  StronglySorted Z.lt l1 -> StronglySorted Z.lt l2 ->
  (forall k, k ∈ l1 <-> k ∈ l2) -> l1 = l2.
Proof.
  intros H1 H2 Hel. apply (StronglySorted_unique_strong Z.lt); [|done|done|].
  - intros x1 x2 _ _ ? ?. lia.
  - apply NoDup_Permutation; auto using StronglySorted_lt_NoDup.
Qed.

Lemma data_count_keys_elem (data : list Z) (k : Z) :
  k ∈ (data_count data).*1 <-> k ∈ data.
Proof.
  split.
  - intros Hk. apply list_elem_of_fmap in Hk as ([k' c] & -> & Hkc).
    by apply data_count_elem in Hkc as [_ ?].
  - intros Hk. apply list_elem_of_fmap.
    exists (k, occurrences k data). split; [done|]. by apply data_count_elem.
Qed.

(** The result, key by key. *)
Lemma distribution_fre_by_keys (data : list Z) :
  distribution_fre (Some data)
  = Ok (Some (map (fun k => (k, fdiv (of_count (occurrences k data))
                                     (of_count (length data))))
                  (data_count data).*1)).
Proof.
  rewrite distribution_fre_unfold. do 2 f_equal.
  change ((data_count data).*1) with (map fst (data_count data)).
  rewrite map_map. apply map_ext_in. intros [k c] Hin.
  apply list_elem_of_In, data_count_elem in Hin as [-> _]. reflexivity.
Qed.

Lemma length_le_sum_counts (l : list (Z * nat)) :
  (forall p, p ∈ l -> (1 <= p.2)%nat) -> (length l <= sum_list_with snd l)%nat.
Proof.
  induction l as [|p l IH]; intros Hall; simpl; [lia|].
  pose proof (Hall p ltac:(left)).
  assert (length l <= sum_list_with snd l)%nat by (apply IH; intros q Hq; apply Hall; by right).
  lia.
Qed.

(** Whatever the data, [distribution_fre] returns a Series with one entry
    per distinct value, at most [len(data)] of them, and every frequency is a
    finite number of [(0, 1]]. *)
Theorem distribution_fre_probabilities (data : list Z) :
  exists s,
    distribution_fre (Some data) = Ok (Some s)
    /\ length s = length (remove_dups data)
    /\ (length s <= length data)%nat
    /\ forall k v, (k, v) ∈ s -> exists q, v = Fin q /\ 0 < q <= 1.
Proof.
  eexists. split; [apply distribution_fre_unfold|].
  rewrite length_map. split; [|split].
  - rewrite <- (length_fmap fst (data_count data)).
    apply Permutation_length, NoDup_Permutation.
    + apply StronglySorted_lt_NoDup, data_count_sorted.
    + apply NoDup_remove_dups.
    + intros k. by rewrite data_count_keys_elem, elem_of_remove_dups.
  - rewrite <- (data_count_total data). apply length_le_sum_counts.
    intros [k c] Hp. apply data_count_elem in Hp as [-> Hk].
    apply occurrences_pos in Hk. simpl. lia.
  - intros k v Hkv. apply list_elem_of_fmap in Hkv as ([k' c] & [= -> ->] & Hkc).
    apply data_count_elem in Hkc as [-> Hk]. cbn [fst snd].
    assert (Hn : length data <> O) by (destruct data; [inversion Hk | simpl; lia]).
    rewrite (inject_count_nonzero _ Hn). eexists. split; [reflexivity|].
    pose proof (inject_count_pos _ Hn) as Hpos.
    apply occurrences_pos in Hk.
    assert (Hc : 0 < inject_Z (Z.of_nat (occurrences k' data))) by (apply inject_count_pos; lia).
    assert (Hle : inject_Z (Z.of_nat (occurrences k' data)) <= inject_Z (Z.of_nat (length data))).
    { rewrite <- Zle_Qle. apply Nat2Z.inj_le. apply length_filter. }
    split; [apply Qlt_shift_div_l | apply Qle_shift_div_r]; lra.
Qed.

Lemma occurrences_app (k : Z) (l1 l2 : list Z) :
  occurrences k (l1 ++ l2) = (occurrences k l1 + occurrences k l2)%nat.
Proof. unfold occurrences. by rewrite filter_app, length_app. Qed.

Lemma occurrences_repeat (k : Z) (data : list Z) (n : nat) :
  occurrences k (mjoin (replicate n data)) = (n * occurrences k data)%nat.
Proof.
  induction n as [|n IH]; [done|].
  change (mjoin (replicate (S n) data)) with (data ++ mjoin (replicate n data)).
  rewrite occurrences_app, IH. lia.
Qed.

Lemma length_repeat (data : list Z) (n : nat) :
  length (mjoin (replicate n data)) = (n * length data)%nat.
Proof.
  induction n as [|n IH]; [done|].
  change (mjoin (replicate (S n) data)) with (data ++ mjoin (replicate n data)).
  rewrite length_app, IH. lia.
Qed.

(** [n > 0] copies of the data, one after the other ([data * n]), have the
    distribution of the data itself: the same keys and the same frequencies. *)
Theorem distribution_fre_repeat (data : list Z) (n : nat) :
  (0 < n)%nat ->
  exists s s',
    distribution_fre (Some data) = Ok (Some s)
    /\ distribution_fre (Some (mjoin (replicate n data))) = Ok (Some s')
    /\ index s' = index s
    /\ Forall2 feq (values s') (values s).
Proof.
  intros Hn. set (data' := mjoin (replicate n data)).
  assert (Hkeys : (data_count data').*1 = (data_count data).*1).
  { apply StronglySorted_lt_ext; [apply data_count_sorted..|].
    intros k. rewrite !data_count_keys_elem, !occurrences_pos.
    unfold data'. rewrite occurrences_repeat. nia. }
  do 2 eexists. split; [apply distribution_fre_by_keys|].
  split; [apply distribution_fre_by_keys|].
  rewrite Hkeys, !index_map_pair, !values_map_pair. split; [done|].
  apply Forall2_fmap, Forall_Forall2_diag, Forall_forall. intros k Hk.
  apply data_count_keys_elem in Hk.
  assert (Hlen : length data <> O) by (destruct data; [inversion Hk | simpl; lia]).
  assert (Hlen' : length data' <> O) by (unfold data'; rewrite length_repeat; nia).
  rewrite (fdiv_counts _ _ Hlen), (fdiv_counts _ _ Hlen'). cbn [feq].
  unfold data'. rewrite occurrences_repeat, length_repeat.
  rewrite !Nat2Z.inj_mul, !inject_Z_mult.
  pose proof (inject_count_pos _ Hlen).
  assert (0 < inject_Z (Z.of_nat n)) by (apply inject_count_pos; lia).
  field. split; lra.
Qed.

Lemma distribution_fre_repeat_witness :
  (0 < 2)%nat
  /\ exists s s',
       distribution_fre (Some [2; 1; 2]%Z) = Ok (Some s)
       /\ distribution_fre (Some (mjoin (replicate 2 [2; 1; 2]%Z))) = Ok (Some s')
       /\ index s' = index s
       /\ Forall2 feq (values s') (values s).
Proof.
  split; [lia|]. apply (distribution_fre_repeat [2; 1; 2]%Z 2). lia.
Defined.

End FrequencyMore.

(** ** [distribution_pdf]: errors, empty and constant samples, counts *)

Section PdfMore.
#[local] Open Scope Q_scope.


(** No count over no total: [0 / d / 0] is [nan]. *)
Lemma fdiv_zero_counts (d : Q) :
  ~ d == 0 -> fdiv (fdiv (of_count 0) (Fin d)) (of_count 0) = NaN.
Proof.
  intros Hd. unfold of_count. change (Z.of_nat 0) with 0%Z. cbn [fdiv].
  destruct (Qeq_bool d 0) eqn:E; [by apply Qeq_bool_iff in E|].
  cbn [fdiv]. change (Qeq_bool (inject_Z 0) 0) with true. cbn iota.
  unfold inf_signed.
  assert (Hz : inject_Z 0 / d == 0) by (unfold Qdiv; change (inject_Z 0) with 0; ring).
  apply Qeq_alt in Hz. by rewrite Hz.
Qed.

Lemma sum_list_zeros {A} (l : list A) : sum_list (map (fun _ => O) l) = O.
Proof. induction l; simpl; [done | lia]. Qed.

Lemma bin_density_empty (bins : Z) (i : nat) :
  (1 <= bins)%Z -> bin_density [] bins 0 1 i = NaN.
Proof.
  intros Hb. unfold bin_density.
  change (bin_population [] bins) with (fun _ : nat => O).
  rewrite sum_list_zeros. apply fdiv_zero_counts.
  rewrite (edge_step bins 0 1 Hb).
  assert (Hbq : 1 <= inject_Z bins) by (unfold Qle; simpl; lia).
  assert (0 < (1 - 0) / inject_Z bins) by (apply Qlt_shift_div_l; lra). lra.
Qed.

(** On an empty sample and a positive bin count, [distribution_pdf] raises
    nothing: it bins the range [[0, 1]] and every density is [nan] (the
    counts are divided by their total, [0]). *)
Theorem distribution_pdf_empty_sample (bins : Z) :
  (0 < bins)%Z ->
  exists pdf,
    distribution_pdf (Some []) (Some bins) = Ok (Some pdf)
    /\ length pdf = Z.to_nat bins
    /\ (forall v, v ∈ values pdf -> v = NaN)
    /\ forall k, k ∈ index pdf -> 0 < k < 1.
Proof.
  intros Hb. assert (Hb' : (1 <= bins)%Z) by lia.
  eexists. split; [apply (distribution_pdf_unfold [] bins 0 1 Hb' eq_refl)|].
  split; [by rewrite length_map, length_seq|].
  rewrite values_map_pair, index_map_pair.
  assert (Hbq : 1 <= inject_Z bins) by (unfold Qle; simpl; lia).
  split.
  - intros v Hv. apply list_elem_of_fmap in Hv as (i & -> & _).
    by apply bin_density_empty.
  - intros k Hk. apply list_elem_of_fmap in Hk as (i & -> & Hi).
    apply elem_of_seq in Hi. rewrite (bin_center_formula bins 0 1 Hb').
    assert (Hi' : inject_Z (Z.of_nat i) + 1 <= inject_Z bins).
    { change 1 with (inject_Z 1) at 1. rewrite <- inject_Z_plus, <- Zle_Qle. lia. }
    assert (Hi0 : 0 <= inject_Z (Z.of_nat i)) by (unfold Qle; simpl; lia).
    set (w := (1 - 0) / inject_Z bins).
    assert (Hw : 0 < w) by (unfold w; apply Qlt_shift_div_l; lra).
    assert (Hbw : inject_Z bins * w == 1) by (unfold w; field; lra).
    split; [nra|].
    assert (0 <= (inject_Z bins - (inject_Z (Z.of_nat i) + 1)) * w)
      by (apply Qmult_le_0_compat; lra).
    lra.
Qed.

Lemma distribution_pdf_empty_sample_witness :
  (0 < 3)%Z
  /\ exists pdf,
       distribution_pdf (Some []) (Some 3%Z) = Ok (Some pdf)
       /\ length pdf = 3%nat
       /\ forall v, v ∈ values pdf -> v = NaN.
Proof.
  split; [reflexivity|].
  destruct (distribution_pdf_empty_sample 3) as (pdf & H1 & H2 & H3 & _); [reflexivity|].
  exists pdf. by repeat split.
Defined.

Lemma outer_edges_single_value (a : list Q) (lo hi : Q) :
  np_min a = Ok lo -> np_max a = Ok hi -> hi == lo ->
  get_outer_edges a = (lo - (1 # 2), hi + (1 # 2)).
Proof.
  destruct a as [|x r]; [discriminate|]. simpl. intros [= <-] [= <-] Heq.
  destruct (Qeq_bool _ _) eqn:E; [reflexivity|].
  apply Qeq_bool_neq in E. exfalso. apply E. by symmetry.
Qed.



End PdfMore.

(** ** What the densities count *)

Section PdfCounts.
#[local] Open Scope Q_scope.

Lemma edge_mono (first_edge last_edge : Q) (bins : Z) (i j : nat) :
  (1 <= bins)%Z -> first_edge < last_edge -> (i <= j)%nat ->
  edge first_edge last_edge (Z.to_nat bins) i <= edge first_edge last_edge (Z.to_nat bins) j.
Proof.
  intros Hb Hlt Hij. rewrite !(edge_formula bins first_edge last_edge Hb).
  assert (Hbq : 1 <= inject_Z bins) by (unfold Qle; simpl; lia).
  assert (Hw : 0 < (last_edge - first_edge) / inject_Z bins)
    by (apply Qlt_shift_div_l; lra).
  assert (Hq : inject_Z (Z.of_nat i) <= inject_Z (Z.of_nat j))
    by (rewrite <- Zle_Qle; lia).
  nra.
Qed.

Lemma in_bin_spec (first_edge last_edge : Q) (n i : nat) (x : Q) :
  in_bin first_edge last_edge n i x = true
  <-> edge first_edge last_edge n i <= x
      /\ (x < edge first_edge last_edge n (S i)
          \/ (S i = n /\ x <= edge first_edge last_edge n (S i))).
Proof.
  unfold in_bin.
  rewrite andb_true_iff, orb_true_iff, andb_true_iff, negb_true_iff, !Qle_bool_iff,
    Nat.eqb_eq.
  assert (Hlt : Qle_bool (edge first_edge last_edge n (S i)) x = false
                <-> x < edge first_edge last_edge n (S i)).
  { split.
    - intros E. apply Qnot_le_lt. intros Hle. apply Qle_bool_iff in Hle. congruence.
    - intros Hx. destruct (Qle_bool _ x) eqn:E; [|done].
      apply Qle_bool_iff in E. lra. }
  rewrite Hlt. tauto.
Qed.

(** The bin index that [histogram] computes is the bin the value lies in. *)
Lemma bin_index_in_bin_iff (first_edge last_edge : Q) (bins : Z) (i : nat) (x : Q) :
  (1 <= bins)%Z -> first_edge < last_edge -> first_edge <= x <= last_edge ->
  (i < Z.to_nat bins)%nat ->
  bin_index first_edge last_edge bins x = Z.of_nat i
  <-> in_bin first_edge last_edge (Z.to_nat bins) i x = true.
Proof.
  intros Hb Hlt Hx Hi. rewrite in_bin_spec.
  destruct (bin_index_in_bin first_edge last_edge bins x Hb Hlt Hx) as (j & Hj & Hlo & Hhi).
  pose proof (bin_index_range first_edge last_edge bins x Hb Hlt Hx) as Hr.
  pose proof (edge_last bins first_edge last_edge Hb) as Hlast.
  rewrite Hj. split.
  - intros Hji. apply Nat2Z.inj in Hji. subst j. split; [done|].
    destruct Hhi as [?|[Hn Hxl]]; [by left|]. right. split; [done|].
    rewrite Hn, Hlast. lra.
  - intros [Hlo' Hhi']. f_equal.
    destruct (Nat.lt_trichotomy j i) as [Hlt'|[->|Hgt]]; [|done|].
    + exfalso. pose proof (edge_mono first_edge last_edge bins (S j) i Hb Hlt ltac:(lia)).
      destruct Hhi as [?|[Hn _]]; [lra | lia].
    + exfalso. pose proof (edge_mono first_edge last_edge bins (S i) j Hb Hlt ltac:(lia)).
      destruct Hhi' as [?|[Hn _]]; [lra | lia].
Qed.

Lemma length_filter_fmap_ext {A B} (f : A -> B) (P : B -> Prop) (R : A -> Prop)
    `{!forall y, Decision (P y)} `{!forall x, Decision (R x)} (l : list A) :
  (forall x, x ∈ l -> P (f x) <-> R x) ->
  length (filter P (map f l)) = length (filter R l).
Proof.
  induction l as [|x l IH]; intros Hext; [done|].
  cbn [map]. rewrite !filter_cons.
  assert (Hl : length (filter P (map f l)) = length (filter R l))
    by (apply IH; intros y Hy; apply Hext; by right).
  pose proof (Hext x ltac:(left)) as Hx.
  repeat case_decide; simpl; try lia; tauto.
Qed.

(** The number of values that [histogram] puts in bin [i] is the number of
    values lying in that bin. *)
Lemma bin_population_in_bin (a : list Q) (bins : Z) (first_edge last_edge : Q) (i : nat) :
  (1 <= bins)%Z -> a <> [] -> get_outer_edges a = (first_edge, last_edge) ->
  (i < Z.to_nat bins)%nat ->
  bin_population a bins i
  = length (filter (fun x => in_bin first_edge last_edge (Z.to_nat bins) i x = true) a).
Proof.
  intros Hb Hne He Hi.
  destruct (outer_edges_bounds a first_edge last_edge Hne He) as [Hlt Hin].
  unfold bin_population. rewrite He.
  rewrite (filter_all _ a).
  - apply length_filter_fmap_ext. intros x Hx. by apply bin_index_in_bin_iff; auto.
  - intros x Hx. destruct (Hin x Hx) as [H1 H2].
    apply andb_true_iff. by rewrite !Qle_bool_iff.
Qed.



End PdfCounts.

(** ** [distribution_cdf]: errors, any sample, what the values measure *)

Section CdfMore.
#[local] Open Scope Q_scope.

Lemma index_series_div {K} (s : Series K) (c : npfloat) :
  index (series_div s c) = index s.
Proof. unfold index, series_div. induction s; simpl; [done | by f_equal]. Qed.

Lemma values_series_div {K} (s : Series K) (c : npfloat) :
  values (series_div s c) = map (fun v => fdiv v c) (values s).
Proof. unfold values, series_div. induction s; simpl; [done | by f_equal]. Qed.

(** The cumulative Series of any density has the keys of the density. *)
Lemma cdf_of_pdf_index (pdf : Series Q) :
  exists cdf, cdf_of_pdf pdf = Ok cdf /\ index cdf = index pdf.
Proof.
  unfold cdf_of_pdf, mk_series. rewrite length_map, Nat.eqb_refl.
  eexists. split; [reflexivity|].
  rewrite index_series_div. unfold index at 1.
  apply fst_zip. by rewrite length_map.
Qed.

(** [distribution_cdf] raises an [AttributeError] when the data is [None]
    (where [distribution_pdf] returns [None]), raises what
    [distribution_pdf] raises, and otherwise returns a Series with exactly
    the keys of the density. *)
Theorem distribution_cdf_follows_pdf (data : option (list Q)) (bins : option Z) :
  (data = None -> distribution_cdf data bins = Raise AttributeError)
  /\ (forall e, distribution_pdf data bins = Raise e ->
                distribution_cdf data bins = Raise e)
  /\ (forall pdf, distribution_pdf data bins = Ok (Some pdf) ->
        exists cdf, distribution_cdf data bins = Ok cdf /\ index cdf = index pdf).
Proof.
  split; [by intros ->|]. split.
  - intros e He. unfold distribution_cdf. by rewrite He.
  - intros pdf Hpdf. rewrite (distribution_cdf_unfold data bins pdf Hpdf).
    apply cdf_of_pdf_index.
Qed.

Lemma partial_sum_nonneg (q : nat -> Q) (k : nat) :
  (forall i, 0 <= q i) -> 0 <= partial_sum q k.
Proof. intros Hq. apply (partial_sum_mono q 0 k Hq). lia. Qed.



Lemma series_sum_all_nan {K} (s : Series K) :
  (forall v, v ∈ values s -> v = NaN) -> series_sum s = Fin 0.
Proof.
  intros Hall. unfold series_sum.
  assert (Hf : filter (fun v => isnan v = false) (values s) = []).
  { induction (values s) as [|v l IH]; [done|].
    rewrite filter_cons_False.
    - apply IH. intros w Hw. apply Hall. by right.
    - rewrite (Hall v) by left. done. }
  by rewrite Hf.
Qed.

Lemma series_max_zeros {K} (s : Series K) :
  s <> [] -> (forall v, v ∈ values s -> v = Fin 0) -> series_max s = Fin 0.
Proof.
  unfold series_max. intros Hne Hall.
  assert (Hf : filter (fun v => isnan v = false) (values s) = values s).
  { apply filter_all. intros v Hv. by rewrite (Hall v Hv). }
  rewrite Hf. unfold values in *. destruct s as [|[k v] s]; [done|].
  cbn [fmap list_fmap snd fmax_list] in *.
  rewrite (Hall v) by left.
  assert (Hs : forall w, w ∈ s.*2 -> w = Fin 0) by (intros w Hw; apply Hall; by right).
  clear Hall Hne Hf. induction s as [|[k' v'] s IH]; [done|].
  cbn [fmap list_fmap snd foldr] in *.
  rewrite IH by (intros w Hw; apply Hs; by right).
  by rewrite (Hs v') by left.
Qed.

(** On an empty sample and a positive bin count, [distribution_cdf] raises
    nothing and every value of its result is [nan]. *)
Theorem distribution_cdf_empty_sample (bins : Z) :
  (0 < bins)%Z ->
  exists cdf,
    distribution_cdf (Some []) (Some bins) = Ok cdf
    /\ length cdf = Z.to_nat bins
    /\ forall v, v ∈ values cdf -> v = NaN.
Proof.
  intros Hb. assert (Hb' : (1 <= bins)%Z) by lia.
  pose proof (distribution_pdf_unfold [] bins 0 1 Hb' eq_refl) as Hpdf.
  rewrite (distribution_cdf_unfold _ _ _ Hpdf).
  set (pdf := map _ (seq 0 (Z.to_nat bins))).
  assert (Hnan : forall v, v ∈ values pdf -> v = NaN).
  { intros v Hv. unfold pdf in Hv. rewrite values_map_pair in Hv.
    apply list_elem_of_fmap in Hv as (i & -> & _). by apply bin_density_empty. }
  assert (Hlen : length pdf = Z.to_nat bins) by (unfold pdf; by rewrite length_map, length_seq).
  assert (Hsum : map (fun ind => series_sum (slice_to pdf ind)) (index pdf)
                 = map (fun _ => Fin 0) (index pdf)).
  { apply map_ext. intros ind. apply series_sum_all_nan.
    intros v Hv. apply Hnan. unfold slice_to, values in *.
    apply list_elem_of_fmap in Hv as (p & -> & Hp).
    apply list_elem_of_fmap_2. by apply (subseteq_take _ _ _ Hp). }
  unfold cdf_of_pdf, mk_series. rewrite Hsum, length_map, Nat.eqb_refl.
  cbn [mbind pyres_bind].
  set (raw := zip (index pdf) (map (fun _ => Fin 0) (index pdf))).
  assert (Hraw : values raw = map (fun _ => Fin 0) (index pdf)).
  { unfold raw, values. apply snd_zip. by rewrite length_map. }
  assert (Hrawlen : length raw = Z.to_nat bins).
  { unfold raw. rewrite length_zip_with_l_eq; unfold index; by rewrite ?length_map. }
  rewrite (series_max_zeros raw).
  - eexists. split; [reflexivity|].
    split; [unfold series_div; by rewrite length_map|].
    intros v Hv. rewrite values_series_div, Hraw, map_map in Hv.
    apply list_elem_of_fmap in Hv as (k & -> & _). reflexivity.
  - intros Hnil. rewrite Hnil in Hrawlen. simpl in Hrawlen. lia.
  - intros v Hv. rewrite Hraw in Hv. by apply list_elem_of_fmap in Hv as (k & -> & _).
Qed.

Lemma distribution_cdf_empty_sample_witness :
  (0 < 3)%Z
  /\ exists cdf,
       distribution_cdf (Some []) (Some 3%Z) = Ok cdf
       /\ length cdf = 3%nat
       /\ forall v, v ∈ values cdf -> v = NaN.
Proof.
  split; [reflexivity|]. apply (distribution_cdf_empty_sample 3). reflexivity.
Defined.

End CdfMore.

(** ** The cumulative values as fractions of the sample *)

Section CdfEmpirical.
#[local] Open Scope Q_scope.

(** The first [k] counts of [bincount] add up to the number of indices
    below [k]. *)
Lemma bincount_prefix_total (indices : list Z) (k : nat) :
  sum_list (map (fun i => length (filter (fun j => j = Z.of_nat i) indices)) (seq 0 k))
  = length (filter (fun j => (0 <= j < Z.of_nat k)%Z) indices).
Proof.
  induction indices as [|j idx IH]; simpl.
  - induction (seq 0 k); simpl; [done | lia].
  - rewrite (map_ext _ (fun i => ((if decide (j = Z.of_nat i) then 1 else 0)
                                  + length (filter (fun j' => j' = Z.of_nat i) idx))%nat)).
    + rewrite sum_list_map_add, sum_list_indicator, IH, filter_cons.
      simpl. repeat case_decide; simpl; lia.
    + intros i. rewrite filter_cons. by case_decide.
Qed.

Lemma Qltb_lt (x y : Q) : Qltb x y = true <-> x < y.
Proof.
  unfold Qltb. rewrite negb_true_iff. split.
  - intros E. apply Qnot_le_lt. intros Hle. apply Qle_bool_iff in Hle. congruence.
  - intros Hx. destruct (Qle_bool y x) eqn:E; [|done].
    apply Qle_bool_iff in E. lra.
Qed.

(** A value lies in one of the first [k] bins exactly when it is below the
    right edge of the last of them (for [k] less than the number of bins). *)
Lemma bin_index_below_edge (first_edge last_edge : Q) (bins : Z) (k : nat) (x : Q) :
  (1 <= bins)%Z -> first_edge < last_edge -> first_edge <= x <= last_edge ->
  (k < Z.to_nat bins)%nat ->
  (0 <= bin_index first_edge last_edge bins x < Z.of_nat k)%Z
  <-> Qltb x (edge first_edge last_edge (Z.to_nat bins) k) = true.
Proof.
  intros Hb Hlt Hx Hk. rewrite Qltb_lt.
  destruct (bin_index_in_bin first_edge last_edge bins x Hb Hlt Hx) as (j & Hj & Hlo & Hhi).
  rewrite Hj. split.
  - intros [_ Hjk]. apply Nat2Z.inj_lt in Hjk.
    pose proof (edge_mono first_edge last_edge bins (S j) k Hb Hlt ltac:(lia)).
    destruct Hhi as [?|[Hn _]]; [lra | lia].
  - intros Hxk. split; [lia|]. apply Nat2Z.inj_lt.
    destruct (decide (j < k)%nat) as [|Hge]; [done|]. exfalso.
    pose proof (edge_mono first_edge last_edge bins k j Hb Hlt ltac:(lia)). lra.
Qed.

Lemma bin_population_prefix (a : list Q) (bins : Z) (first_edge last_edge : Q) (k : nat) :
  (1 <= bins)%Z -> a <> [] -> get_outer_edges a = (first_edge, last_edge) ->
  (k < Z.to_nat bins)%nat ->
  sum_list (map (bin_population a bins) (seq 0 k))
  = length (filter (fun x => Qltb x (edge first_edge last_edge (Z.to_nat bins) k) = true) a).
Proof.
  intros Hb Hne He Hk.
  destruct (outer_edges_bounds a first_edge last_edge Hne He) as [Hlt Hin].
  assert (Hkeep : filter (fun x => Qle_bool first_edge x && Qle_bool x last_edge = true) a = a).
  { apply filter_all. intros x Hx. destruct (Hin x Hx) as [H1 H2].
    apply andb_true_iff. by rewrite !Qle_bool_iff. }
  rewrite (map_ext _ (fun i => length (filter (fun j => j = Z.of_nat i)
                                         (map (bin_index first_edge last_edge bins) a)))).
  - rewrite bincount_prefix_total. apply length_filter_fmap_ext.
    intros x Hx. by apply bin_index_below_edge; auto.
  - intros i. unfold bin_population. by rewrite He, Hkeep.
Qed.



End CdfEmpirical.

(** ** Colour conversion: what the round trip returns, shapes, the [#] *)

Section ColorMore.
Import Color.
#[local] Open Scope Z_scope.

Lemma reads_back_table :
  forallb (fun c => reads_back_as c (misplaced_pad c)) (map Z.of_nat (seq 0 256)) = true.
Proof. by vm_compute. Qed.

Lemma reads_back_inv (c : Z) :
  0 <= c <= 255 ->
  exists a b da db,
    hex_each c = String a (String b EmptyString)
    /\ HexString.ascii_to_digit a = Some da
    /\ HexString.ascii_to_digit b = Some db
    /\ 16 * Z.of_N da + Z.of_N db = misplaced_pad c.
Proof.
  intros Hc. pose proof reads_back_table as Ht.
  rewrite forallb_forall in Ht. specialize (Ht c).
  assert (Hin : In c (map Z.of_nat (seq 0 256))).
  { apply in_map_iff. exists (Z.to_nat c). split; [lia|]. apply in_seq. lia. }
  specialize (Ht Hin). unfold reads_back_as in Ht.
  destruct (hex_each c) as [|a [|b [|? ?]]]; try discriminate.
  destruct (HexString.ascii_to_digit a) as [da|] eqn:Ea; [|discriminate].
  destruct (HexString.ascii_to_digit b) as [db|] eqn:Eb; [|discriminate].
  exists a, b, da, db. repeat split; try done. lia.
Qed.

Lemma misplaced_pad_range (c : Z) : 0 <= c <= 255 -> 0 <= misplaced_pad c <= 255.
Proof. unfold misplaced_pad. destruct (c <? 16) eqn:E; lia. Qed.

(** For every triple of integers of [[0, 255]], converting to a hex colour
    and back returns each component unchanged when it is 16 or more, and
    multiplied by 16 when it is below 16 (so [0] is unchanged too). *)
Theorem rgb_hex_roundtrip_value (r g b : Z) :
  0 <= r <= 255 -> 0 <= g <= 255 -> 0 <= b <= 255 ->
  hex2rgb (rgb2hex [r; g; b]) = Ok [misplaced_pad r; misplaced_pad g; misplaced_pad b].
Proof.
  intros Hr Hg Hb. rewrite rgb2hex_three.
  destruct (reads_back_inv r Hr) as (a1 & b1 & x1 & y1 & -> & Ha1 & Hb1 & E1).
  destruct (reads_back_inv g Hg) as (a2 & b2 & x2 & y2 & -> & Ha2 & Hb2 & E2).
  destruct (reads_back_inv b Hb) as (a3 & b3 & x3 & y3 & -> & Ha3 & Hb3 & E3).
  change ((("#" ++ String a1 (String b1 "")) ++ String a2 (String b2 ""))
          ++ String a3 (String b3 ""))%string
    with (String "#" (String a1 (String b1 (String a2 (String b2
            (String a3 (String b3 ""))))))).
  rewrite hex2rgb_hash, int_base16_prefixed.
  rewrite (parse_two_digits a1 b1 x1 y1) by done.
  rewrite (parse_two_digits a2 b2 x2 y2) by done.
  rewrite (parse_two_digits a3 b3 x3 y3) by done.
  cbn [parse_hex_digits mbind pyres_bind].
  pose proof (misplaced_pad_range r Hr). pose proof (misplaced_pad_range g Hg).
  pose proof (misplaced_pad_range b Hb).
  match goal with
  | |- context [Z.shiftr ?v 16] =>
      destruct (land_shift_packed (misplaced_pad r) (misplaced_pad g) (misplaced_pad b) v)
        as (-> & -> & ->); [lia | lia | lia | lia | done]
  end.
Qed.

Lemma rgb_hex_roundtrip_value_witness :
  0 <= 10 <= 255 /\ 0 <= 200 <= 255 /\ 0 <= 0 <= 255
  /\ hex2rgb (rgb2hex [10; 200; 0]) = Ok [160; 200; 0].
Proof.
  split; [lia|]. split; [lia|]. split; [lia|].
  apply (rgb_hex_roundtrip_value 10 200 0); lia.
Defined.

Lemma rgb_hex_roundtrip_two_digits_witness :
  (0 = 0 \/ 16 <= 0 <= 255) /\ (111 = 0 \/ 16 <= 111 <= 255) /\ (255 = 0 \/ 16 <= 255 <= 255)
  /\ hex2rgb (rgb2hex [0; 111; 255]) = Ok [0; 111; 255].
Proof.
  split; [by left|]. split; [right; lia|]. split; [right; lia|].
  apply (rgb_hex_roundtrip_two_digits 0 111 255); [by left | right; lia | right; lia].
Defined.

Lemma land_255_range (x : Z) : 0 <= Z.land x 255 <= 255.
Proof.
  change 255 with (Z.ones 8) at 1 2. rewrite Z.land_ones by lia.
  change (2 ^ 8) with 256. pose proof (Z.mod_pos_bound x 256 ltac:(lia)). lia.
Qed.

(** Whatever the string, when [hex2rgb] returns it returns exactly three
    components, each in [[0, 255]]. *)
Theorem hex2rgb_components (hexcolor : string) (rgb : list Z) :
  hex2rgb hexcolor = Ok rgb ->
  exists r g b, rgb = [r; g; b] /\ 0 <= r <= 255 /\ 0 <= g <= 255 /\ 0 <= b <= 255.
Proof.
  unfold hex2rgb. destruct (int_base16 _) as [n|e]; [|discriminate].
  cbn [mbind pyres_bind]. intros [= <-].
  do 3 eexists. split; [reflexivity|].
  split; [|split]; apply land_255_range.
Qed.

Lemma hex2rgb_components_witness :
  hex2rgb "#6F1958" = Ok [111; 25; 88]
  /\ exists r g b, [111; 25; 88] = [r; g; b]
       /\ 0 <= r <= 255 /\ 0 <= g <= 255 /\ 0 <= b <= 255.
Proof.
  split; [reflexivity|]. apply (hex2rgb_components "#6F1958" [111; 25; 88]). reflexivity.
Defined.

Lemma string_length_app (s t : string) :
  String.length (s ++ t) = (String.length s + String.length t)%nat.
Proof.
  induction s as [|c s IH]; [done|].
  change (String c s ++ t)%string with (String c (s ++ t)). cbn [String.length].
  by rewrite IH.
Qed.

Lemma hex_each_length_table :
  forallb (fun c => (String.length (hex_each c) =? 2)%nat) (map Z.of_nat (seq 0 256)) = true.
Proof. by vm_compute. Qed.

Lemma hex_each_length (c : Z) : 0 <= c <= 255 -> String.length (hex_each c) = 2%nat.
Proof.
  intros Hc. pose proof hex_each_length_table as Ht.
  rewrite forallb_forall in Ht. apply Nat.eqb_eq, Ht.
  apply in_map_iff. exists (Z.to_nat c). split; [lia|]. apply in_seq. lia.
Qed.

Lemma string_app_nil_r (s : string) : (s ++ "")%string = s.
Proof.
  induction s as [|c s IH]; [done|].
  change (String c s ++ "")%string with (String c (s ++ "")). by rewrite IH.
Qed.

Lemma string_app_assoc (s t u : string) : ((s ++ t) ++ u)%string = (s ++ (t ++ u))%string.
Proof.
  induction s as [|c s IH]; [done|].
  change ((String c s ++ t) ++ u)%string with (String c ((s ++ t) ++ u)).
  by rewrite IH.
Qed.

Lemma rgb2hex_fold (rgb : list Z) (acc : string) :
  fold_left (fun hexcolor each => (hexcolor ++ hex_each each)%string) rgb acc
  = (acc ++ fold_left (fun hexcolor each => (hexcolor ++ hex_each each)%string) rgb "")%string.
Proof.
  revert acc. induction rgb as [|c rgb IH]; intros acc; cbn [fold_left].
  - by rewrite string_app_nil_r.
  - rewrite (IH (acc ++ hex_each c)%string), (IH ("" ++ hex_each c)%string).
    change ("" ++ hex_each c)%string with (hex_each c). by rewrite string_app_assoc.
Qed.

(** For components of [[0, 255]], [rgb2hex] returns a [#] followed by
    exactly two characters per component, the misplaced padding included. *)
Theorem rgb2hex_length (rgb : list Z) :
  Forall (fun c => 0 <= c <= 255) rgb ->
  exists digits,
    rgb2hex rgb = String "#" digits
    /\ String.length digits = (2 * length rgb)%nat.
Proof.
  intros Hall. unfold rgb2hex.
  change (fold_left _ rgb "#"%string)
    with (fold_left (fun hexcolor each => (hexcolor ++ hex_each each)%string) rgb "#"%string).
  rewrite rgb2hex_fold. eexists. split; [reflexivity|].
  induction Hall as [|c rgb Hc _ IH]; [done|].
  cbn [fold_left length]. rewrite rgb2hex_fold, string_length_app, IH.
  change ("" ++ hex_each c)%string with (hex_each c).
  rewrite (hex_each_length c Hc). lia.
Qed.

Lemma rgb2hex_length_witness :
  Forall (fun c => 0 <= c <= 255) [1; 2; 3]
  /\ exists digits,
       rgb2hex [1; 2; 3] = String "#" digits /\ String.length digits = (2 * 3)%nat.
Proof.
  assert (H : Forall (fun c => 0 <= c <= 255) [1; 2; 3]) by (repeat constructor; lia).
  split; [exact H|]. apply (rgb2hex_length [1; 2; 3] H).
Defined.

(** The leading [#] is optional: for a string without [#], [hex2rgb] gives
    the same result with and without a [#] put in front. *)
Theorem hex2rgb_hash_optional (s : string) :
  str_contains "#" s = false -> hex2rgb (String "#" s) = hex2rgb s.
Proof. intros Hs. rewrite hex2rgb_hash. unfold hex2rgb. by rewrite Hs. Qed.

Lemma hex2rgb_hash_optional_witness :
  str_contains "#" "6F1958" = false /\ hex2rgb "#6F1958" = hex2rgb "6F1958".
Proof. split; [reflexivity|]. apply (hex2rgb_hash_optional "6F1958"). reflexivity. Defined.

Lemma parse_hex_digits_hash (s : string) (acc : Z) :
  str_contains "#" s = true -> parse_hex_digits s acc = None.
Proof.
  revert acc. induction s as [|d s IH]; intros acc; [discriminate|].
  cbn [str_contains parse_hex_digits].
  destruct (Ascii.eqb "#" d) eqn:E.
  - apply Ascii.eqb_eq in E. subst d. reflexivity.
  - intros Hs. destruct (HexString.ascii_to_digit d); [by apply IH | done].
Qed.

(** A [#] anywhere after the first character makes [hex2rgb] raise a
    [ValueError]: the first character is dropped, whatever it is, and the
    [#] left behind is no hexadecimal digit. *)
Theorem hex2rgb_inner_hash (c : ascii) (s : string) :
  str_contains "#" s = true -> hex2rgb (String c s) = Raise ValueError.
Proof.
  intros Hs. unfold hex2rgb.
  assert (Hc : str_contains "#" (String c s) = true).
  { cbn [str_contains]. by destruct (Ascii.eqb "#" c). }
  rewrite Hc. change (str_from 1 (String c s)) with s.
  change ("0x" ++ s)%string with (String "0" (String "x" s)).
  destruct s as [|d s]; [discriminate|].
  rewrite int_base16_prefixed, (parse_hex_digits_hash _ 0 Hs). reflexivity.
Qed.

Lemma hex2rgb_inner_hash_witness :
  str_contains "#" "F19#58" = true /\ hex2rgb "6F19#58" = Raise ValueError.
Proof.
  split; [reflexivity|]. apply (hex2rgb_inner_hash "6" "F19#58"). reflexivity.
Defined.

End ColorMore.

(** ** Listing files *)

Section FilesFacts.
Import Files.
#[local] Open Scope string_scope.

Example get_files_names :
  get_files sample_fs "data" ".csv" "name" = inr ["a"; "b"].
Proof. by vm_compute. Qed.

Example get_files_all_flat :
  get_files_all sample_fs "data" ".csv" = ["data/a.csv"; "data/b.csv"].
Proof. by vm_compute. Qed.

Example splitext_examples :
  splitext "archive.tar.gz" = ("archive.tar", ".gz")
  /\ splitext ".bashrc" = (".bashrc", "")
  /\ splitext "dir.d/file" = ("dir.d/file", "")
  /\ splitext "..." = ("...", "").
Proof. by vm_compute. Qed.

Lemma str_to_from (k : nat) (s : string) : str_to k s ++ Color.str_from k s = s.
Proof.
  revert s. induction k as [|k IH]; intros s; [done|].
  destruct s as [|c s]; [done|]. cbn [str_to Color.str_from].
  change (String c (str_to k s) ++ Color.str_from k s)
    with (String c (str_to k s ++ Color.str_from k s)).
  by rewrite IH.
Qed.

(** The two parts that [splitext] returns make up the path. *)
Lemma splitext_append (p : string) : (splitext p).1 ++ (splitext p).2 = p.
Proof.
  unfold splitext. destruct (_ && _); cbn [fst snd].
  - apply str_to_from.
  - apply string_app_nil_r.
Qed.

Lemma rfind_from_spec (c : ascii) (p : string) (i found : Z) :
  rfind_from c p i found = found
  \/ (i <= rfind_from c p i found)%Z
     /\ String.get (Z.to_nat (rfind_from c p i found - i)) p = Some c.
Proof.
  revert i found. induction p as [|d p IH]; intros i found; [by left|].
  cbn [rfind_from].
  destruct (IH (i + 1)%Z (if Ascii.eqb c d then i else found)) as [Heq|[Hle Hget]].
  - rewrite Heq. destruct (Ascii.eqb c d) eqn:E; [|by left].
    right. apply Ascii.eqb_eq in E. subst d. split; [lia|].
    by replace (i - i)%Z with 0%Z by lia.
  - right. split; [lia|].
    replace (Z.to_nat (rfind_from c p (i + 1) (if Ascii.eqb c d then i else found) - i))
      with (S (Z.to_nat (rfind_from c p (i + 1) (if Ascii.eqb c d then i else found) - (i + 1))))
      by lia.
    exact Hget.
Qed.

Lemma rfind_spec (c : ascii) (p : string) :
  rfind c p = (-1)%Z
  \/ (0 <= rfind c p)%Z /\ String.get (Z.to_nat (rfind c p)) p = Some c.
Proof.
  unfold rfind. destruct (rfind_from_spec c p 0 (-1)) as [?|[? Hget]]; [by left|].
  right. split; [done|]. by rewrite Z.sub_0_r in Hget.
Qed.

Lemma str_from_get (k : nat) (s : string) (c : ascii) :
  String.get k s = Some c -> exists t, Color.str_from k s = String c t.
Proof.
  revert s. induction k as [|k IH]; intros s; destruct s as [|d s]; try discriminate.
  - cbn. intros [= ->]. by eexists.
  - cbn [String.get Color.str_from]. apply IH.
Qed.

(** An extension is empty or begins with a dot. *)
Lemma splitext_ext_shape (p : string) :
  (splitext p).2 = "" \/ exists t, (splitext p).2 = String "." t.
Proof.
  unfold splitext. destruct (_ && _) eqn:E; cbn [fst snd]; [|by left].
  right. apply andb_true_iff in E as [Hlt _]. apply Z.ltb_lt in Hlt.
  destruct (rfind_spec "." p) as [Hnone|[Hge Hget]].
  - destruct (rfind_spec "/" p) as [Hs|[Hs _]]; lia.
  - by apply str_from_get.
Qed.

Lemma selected_roots (filetype : string) (names : list string) :
  map (fun n => n ++ filetype) (map (fun filename => (splitext filename).1) (selected filetype names))
  = selected filetype names.
Proof.
  unfold selected. rewrite map_map.
  induction names as [|f names IH]; [done|].
  rewrite filter_cons. case_decide as Hf; [|exact IH].
  cbn [map]. rewrite IH. f_equal.
  rewrite <- Hf at 1. apply splitext_append.
Qed.

(** With a return type other than ['abspath'] (['name'] or anything else),
    [get_files] returns the entries of the directory that have the given
    extension, without it and in listing order: putting the extension back
    on the returned names gives exactly those entries. *)
Theorem get_files_names_roundtrip (fs : filesystem)
    (filedir filetype return_type : string) (names : list string) :
  listdir fs filedir = Some names -> return_type <> "abspath" ->
  exists files,
    get_files fs filedir filetype return_type = inr files
    /\ map (fun n => n ++ filetype) files
       = filter (fun filename => (splitext filename).2 = filetype) names.
Proof.
  intros Hls Hrt. unfold get_files. rewrite Hls.
  fold (selected filetype names).
  assert (Hab : String.eqb return_type "abspath" = false) by by apply String.eqb_neq.
  rewrite Hab.
  exists (map (fun filename => (splitext filename).1) (selected filetype names)).
  split; [by destruct (String.eqb return_type "name")|]. apply selected_roots.
Qed.

Lemma get_files_names_roundtrip_witness :
  listdir sample_fs "data" = Some ["a.csv"; "notes.txt"; ".csv"; "b.csv"]
  /\ "name" <> "abspath"
  /\ exists files,
       get_files sample_fs "data" ".csv" "name" = inr files
       /\ map (fun n => n ++ ".csv") files
          = filter (fun filename => (splitext filename).2 = ".csv")
                   ["a.csv"; "notes.txt"; ".csv"; "b.csv"].
Proof.
  split; [reflexivity|]. split; [discriminate|].
  apply (get_files_names_roundtrip sample_fs "data" ".csv" "name");
    [reflexivity | discriminate].
Defined.

(** A non-empty [filetype] that does not begin with a dot (['csv'] for
    ['.csv']) matches no entry: [get_files] then returns the empty list,
    whatever the directory holds and whatever the return type. *)
Theorem get_files_extension_without_dot (fs : filesystem)
    (filedir return_type : string) (c : ascii) (rest : string) (names : list string) :
  listdir fs filedir = Some names -> c <> "."%char ->
  get_files fs filedir (String c rest) return_type = inr [].
Proof.
  intros Hls Hc. unfold get_files. rewrite Hls.
  assert (Hsel : filter (fun filename => (splitext filename).2 = String c rest) names = []).
  { clear Hls. induction names as [|f names IH]; [done|].
    rewrite filter_cons_False; [exact IH|].
    intros Heq. destruct (splitext_ext_shape f) as [He|[t He]]; rewrite He in Heq.
    - discriminate.
    - injection Heq as Hd _. by symmetry in Hd. }
  rewrite Hsel. cbn [map comprehension].
  by destruct (String.eqb return_type "name"), (String.eqb return_type "abspath").
Qed.

Lemma get_files_extension_without_dot_witness :
  listdir sample_fs "data" = Some ["a.csv"; "notes.txt"; ".csv"; "b.csv"]
  /\ "c"%char <> "."%char
  /\ get_files sample_fs "data" "csv" "name" = inr [].
Proof.
  split; [reflexivity|]. split; [discriminate|].
  apply (get_files_extension_without_dot sample_fs "data" "name" "c" "sv"
           ["a.csv"; "notes.txt"; ".csv"; "b.csv"]);
    [reflexivity | discriminate].
Defined.

(** With the default return type ['abspath'], [get_files] raises a
    [TypeError] as soon as one entry has the extension (it joins the names to
    the built-in [dir], not to [filedir]), and returns the empty list when
    none has. *)
Theorem get_files_abspath (fs : filesystem) (filedir filetype : string)
    (names : list string) :
  listdir fs filedir = Some names ->
  (Exists (fun filename => (splitext filename).2 = filetype) names ->
   get_files fs filedir filetype "abspath" = inl TypeError)
  /\ (Forall (fun filename => (splitext filename).2 <> filetype) names ->
      get_files fs filedir filetype "abspath" = inr []).
Proof.
  intros Hls. unfold get_files. rewrite Hls.
  change (String.eqb "abspath" "name") with false.
  change (String.eqb "abspath" "abspath") with true. cbn iota.
  fold (selected filetype names). split.
  - intros Hex.
    assert (Hne : selected filetype names <> []).
    { apply Exists_exists in Hex as (f & Hf & Hm). intros Hnil.
      assert (Hin : f ∈ selected filetype names) by by apply list_elem_of_filter.
      rewrite Hnil in Hin. inversion Hin. }
    destruct (selected filetype names); [done | reflexivity].
  - intros Hall.
    assert (Hnil : selected filetype names = []).
    { unfold selected. clear Hls. induction Hall as [|f names Hf _ IH]; [done|].
      rewrite filter_cons_False by done. exact IH. }
    by rewrite Hnil.
Qed.

Lemma get_files_abspath_witness :
  listdir sample_fs "data" = Some ["a.csv"; "notes.txt"; ".csv"; "b.csv"]
  /\ get_files sample_fs "data" ".csv" "abspath" = inl TypeError.
Proof.
  split; [reflexivity|].
  apply (get_files_abspath sample_fs "data" ".csv"
           ["a.csv"; "notes.txt"; ".csv"; "b.csv"] eq_refl).
  apply Exists_cons_hd. reflexivity.
Defined.

(** On a directory without sub-directories, [get_files_all] returns what the
    ['abspath'] mode of [get_files] is after: the names that [get_files]
    returns, with the extension, joined to the directory. *)
Theorem get_files_all_flat_directory (fs : filesystem) (filedir filetype : string)
    (dirnames names : list string) :
  listdir fs filedir = Some names -> walk fs filedir = [(filedir, dirnames, names)] ->
  exists files,
    get_files fs filedir filetype "name" = inr files
    /\ get_files_all fs filedir filetype
       = map (fun n => join filedir (n ++ filetype)) files.
Proof.
  intros Hls Hwalk. unfold get_files, get_files_all. rewrite Hls, Hwalk.
  change (String.eqb "name" "name") with true. cbn iota.
  eexists. split; [reflexivity|]. fold (selected filetype names).
  cbn [flat_map]. rewrite app_nil_r.
  rewrite <- (map_map (fun n => n ++ filetype) (join filedir)), selected_roots.
  destruct (1 <=? length names)%nat eqn:E; [done|].
  apply Nat.leb_gt in E. by destruct names; [|simpl in E; lia].
Qed.

Lemma get_files_all_flat_directory_witness :
  listdir sample_fs "data" = Some ["a.csv"; "notes.txt"; ".csv"; "b.csv"]
  /\ walk sample_fs "data" = [("data", [], ["a.csv"; "notes.txt"; ".csv"; "b.csv"])]
  /\ exists files,
       get_files sample_fs "data" ".csv" "name" = inr files
       /\ get_files_all sample_fs "data" ".csv"
          = map (fun n => join "data" (n ++ ".csv")) files.
Proof.
  split; [reflexivity|]. split; [reflexivity|].
  apply (get_files_all_flat_directory sample_fs "data" ".csv" []
           ["a.csv"; "notes.txt"; ".csv"; "b.csv"]); reflexivity.
Defined.

Lemma join_suffix (a b : string) : exists stem, join a b = stem ++ b.
Proof.
  unfold join. destruct (starts_with_sep b).
  - by exists "".
  - destruct (match a with "" => true | _ => ends_with_sep a end).
    + by exists a.
    + exists (a ++ "/"). by rewrite string_app_assoc.
Qed.

(** Every path that [get_files_all] returns is a file name that [os.walk]
    listed, joined to the directory it was listed in, and it ends with
    [filetype]. *)
Theorem get_files_all_paths (fs : filesystem) (filedir filetype path : string) :
  path ∈ get_files_all fs filedir filetype ->
  (exists dirpath dirnames filenames file_i,
      (dirpath, dirnames, filenames) ∈ walk fs filedir
      /\ file_i ∈ filenames
      /\ (splitext file_i).2 = filetype
      /\ path = join dirpath file_i)
  /\ exists stem, path = stem ++ filetype.
Proof.
  unfold get_files_all. intros Hin.
  apply list_elem_of_In, in_flat_map in Hin as ([[dirpath dirnames] filenames] & Hw & Hp).
  apply list_elem_of_In in Hw.
  destruct (1 <=? length filenames)%nat; [|by apply list_elem_of_In in Hp; inversion Hp].
  apply list_elem_of_In, list_elem_of_fmap in Hp as (file_i & -> & Hf).
  apply list_elem_of_filter in Hf as [Hext Hf].
  split; [by exists dirpath, dirnames, filenames, file_i|].
  destruct (join_suffix dirpath file_i) as [stem ->].
  exists (stem ++ (splitext file_i).1).
  by rewrite string_app_assoc, <- Hext, splitext_append.
Qed.

Lemma get_files_all_paths_witness :
  "data/b.csv" ∈ get_files_all sample_fs "data" ".csv"
  /\ exists stem, "data/b.csv" = stem ++ ".csv".
Proof.
  assert (Hin : "data/b.csv" ∈ get_files_all sample_fs "data" ".csv").
  { vm_compute. right. left. }
  split; [exact Hin|].
  apply (get_files_all_paths sample_fs "data" ".csv" "data/b.csv" Hin).
Defined.

Lemma ends_with_sep_snoc (a : string) : ends_with_sep (a ++ "/") = true.
Proof.
  induction a as [|c a IH]; [done|].
  change (String c a ++ "/") with (String c (a ++ "/")). cbn [ends_with_sep].
  destruct (a ++ "/") eqn:E; [by destruct a | exact IH].
Qed.

Lemma join_trailing_sep (a b : string) :
  a <> "" -> ends_with_sep a = false -> join (a ++ "/") b = join a b.
Proof.
  intros Ha Hsep. unfold join. destruct (starts_with_sep b); [done|].
  rewrite ends_with_sep_snoc, Hsep.
  destruct (a ++ "/") as [|c' a'] eqn:E; [by destruct a|].
  rewrite <- E. destruct a as [|c a]; [done|]. apply string_app_assoc.
Qed.

(** A separator at the end of the directory does not change the paths that
    [get_subdir] returns: it joins each entry to the directory with a single
    separator either way. *)
Theorem get_subdir_trailing_separator (fs : filesystem) (sup_dir : string)
    (names : list string) :
  sup_dir <> "" -> ends_with_sep sup_dir = false ->
  listdir fs sup_dir = Some names -> listdir fs (sup_dir ++ "/") = Some names ->
  get_subdir fs (sup_dir ++ "/") = get_subdir fs sup_dir.
Proof.
  intros Hne Hsep Hls Hls'. unfold get_subdir. rewrite Hls, Hls'. do 2 f_equal.
  apply map_ext. intros subdir. by apply join_trailing_sep.
Qed.

Lemma get_subdir_trailing_separator_witness :
  "top" <> "" /\ ends_with_sep "top" = false
  /\ listdir sample_tree "top" = Some ["sub"; "f.txt"]
  /\ listdir sample_tree ("top" ++ "/") = Some ["sub"; "f.txt"]
  /\ get_subdir sample_tree ("top" ++ "/") = get_subdir sample_tree "top"
  /\ get_subdir sample_tree "top" = inr ["top/sub"].
Proof.
  split; [discriminate|]. split; [reflexivity|]. split; [reflexivity|].
  split; [reflexivity|]. split; [|by vm_compute].
  apply (get_subdir_trailing_separator sample_tree "top" ["sub"; "f.txt"]);
    [discriminate | reflexivity | reflexivity | reflexivity].
Defined.

End FilesFacts.
